(** * MedCAT checkpoint manager ([medcat/utils/checkpoint.py])

    A shallow embedding of the [Checkpoint] class: the manager object is a
    record, the disk is a finite map from absolute paths to node kinds, and
    every method is a function that threads both.  A raised exception is a
    result [inl e]; as in Python, whatever the method did to the object or to
    the disk before raising stays done.

    Conventions of the model:
    - paths and file names are 8-bit strings; [int()] is modelled on ASCII
      (decimal digits of other scripts are not recognised);
    - directory paths handed to the manager are absolute and normalised, so
      [os.path.abspath] is the identity on them;
    - [os.listdir] returns names in arbitrary order; here the order is the one
      of [map_to_list], and no statement below depends on it;
    - Python integers are unbounded, hence [Z]; the cap that recent
      interpreters put on conversions of numbers of thousands of digits is
      left out;
    - of the operating system only what the class asks of it is kept: whether
      a path is a directory or a regular file, the names in a directory,
      [os.remove] and [os.makedirs], with the errors they raise on a missing
      or wrongly typed path; permissions and full disks are left out;
    - logging has no effect on the state and is dropped. *)

From stdpp Require Import base option list gmap strings sorting.
From Stdlib Require Import Ascii ZArith Lia DecimalString DecimalPos.

Local Open Scope string_scope.
Local Open Scope Z_scope.
Local Open Scope list_scope.

(** ** Python strings *)

Definition is_sep (sep c : ascii) : bool := bool_decide (c = sep).

(** [needle] is a prefix of [s] ([s.startswith(needle)]). *)
Fixpoint starts_with (needle s : string) : bool :=
  match needle, s with
  | EmptyString, _ => true
  | String a n', String b s' => bool_decide (a = b) && starts_with n' s'
  | String _ _, EmptyString => false
  end.

(** [needle in s]. *)
Fixpoint contains (needle s : string) : bool :=
  starts_with needle s ||
  match s with
  | EmptyString => false
  | String _ s' => contains needle s'
  end.

Fixpoint ends_with (c : ascii) (s : string) : bool :=
  match s with
  | EmptyString => false
  | String a EmptyString => bool_decide (a = c)
  | String _ s' => ends_with c s'
  end.

(** [s.split(sep)] for a one-character separator: never empty, and two
    adjacent separators enclose an empty field. *)
Fixpoint split (sep : ascii) (s : string) : list string :=
  match s with
  | EmptyString => [EmptyString]
  | String c s' =>
      if is_sep sep c then EmptyString :: split sep s'
      else match split sep s' with
           | h :: t => String c h :: t
           | [] => [String c EmptyString]
           end
  end.

(** [posixpath.join(a, b)]. *)
Definition join (a b : string) : string :=
  if starts_with "/" b then b
  else if bool_decide (a = "") || ends_with "/" a then a +:+ b
  else a +:+ "/" +:+ b.

(** [posixpath.basename(p)]: what follows the last slash. *)
Fixpoint basename (p : string) : string :=
  match p with
  | EmptyString => EmptyString
  | String c p' =>
      if contains "/" p' then basename p'
      else if is_sep "/" c then p' else p
  end.

(** [os.path.abspath], on the normalised absolute paths of this model. *)
Definition abspath (p : string) : string := p.

(** *** [int(s)] and [str(n)] *)

(** The value of a decimal digit: its code minus the code of ["0"]. *)
Definition digit_val (c : ascii) : option Z :=
  let code := Z.of_N (N_of_ascii c) in
  if (48 <=? code) && (code <=? 57) then Some (code - 48) else None.

(** Whitespace that [int()] ignores around the number. *)
Definition is_space (c : ascii) : bool :=
  match c with
  | " " | "009" | "010" | "011" | "012" | "013"
  | "028" | "029" | "030" | "031" => true
  | _ => false
  end%char.

Fixpoint lstrip (s : string) : string :=
  match s with
  | String c s' => if is_space c then lstrip s' else s
  | EmptyString => EmptyString
  end.

Fixpoint rstrip (s : string) : string :=
  match s with
  | EmptyString => EmptyString
  | String c s' =>
      match rstrip s' with
      | EmptyString => if is_space c then EmptyString else String c EmptyString
      | r => String c r
      end
  end.

(** Digits after the first one: a single underscore may separate two digits. *)
Fixpoint digits_acc (acc : Z) (s : string) : option Z :=
  match s with
  | EmptyString => Some acc
  | String c s' =>
      match digit_val c with
      | Some d => digits_acc (10 * acc + d) s'
      | None =>
          if is_sep "_" c then
            match s' with
            | String c' s'' =>
                match digit_val c' with
                | Some d => digits_acc (10 * acc + d) s''
                | None => None
                end
            | EmptyString => None
            end
          else None
      end
  end.

Definition digits (s : string) : option Z :=
  match s with
  | String c s' =>
      match digit_val c with
      | Some d => digits_acc d s'
      | None => None
      end
  | EmptyString => None
  end.

(** [int(s)] in base ten; [None] stands for [ValueError]. *)
Definition py_int (s : string) : option Z :=
  match rstrip (lstrip s) with
  | String "+" s' => digits s'
  | String "-" s' => Z.opp <$> digits s'
  | t => digits t
  end.

(** [str(n)], which is what ["%s" % n] renders for an integer. *)
Definition str (n : Z) : string := NilZero.string_of_int (Z.to_int n).

(** ** Exceptions

    The built-in exceptions the class raises or lets through.  [load],
    [restore] and [populate] raise a plain [Exception] with a message;
    [InvalidArgument] is what the validating decorator raises (see
    [check_positive] below); [PersistenceFailure] wraps whatever the model
    collaborator raised. *)

Inductive exn :=
  | Exception (msg : string)
  | ValueError
  | IndexError
  | FileNotFoundError
  | NotADirectoryError
  | IsADirectoryError
  | FileExistsError
  | InvalidArgument
  | PersistenceFailure (msg : string).

Definition result (A : Type) : Type := exn + A.

#[global] Instance result_ret : MRet result := λ A x, inr x.
#[global] Instance result_bind : MBind result := λ A B f r,
  match r with
  | inl e => inl e
  | inr x => f x
  end.
#[global] Instance result_fmap : FMap result := λ A B f r,
  match r with
  | inl e => inl e
  | inr x => inr (f x)
  end.

Definition NotFound : exn :=
  Exception "Checkpoints not found. You need to train from scratch.".
Definition NotRestored : exn :=
  Exception "Cannot populate the model. Make sure the checkpoint is restored beforehand.".

(** What the specification calls [CorruptCheckpointName]: the two ways in
    which [_get_steps_and_count] raises. *)
Definition CorruptCheckpointName (e : exn) : Prop :=
  e = ValueError ∨ e = IndexError.

(** ** The disk *)

(** What a path leads to: a regular file, a directory, or something else
    (a socket, a fifo, a device). *)
Inductive node := Regular | Directory | Special.

#[global] Instance node_eq_dec : EqDecision node.
Proof. solve_decision. Defined.

Abbreviation FS := (gmap string node).

Definition isdir (p : string) (fs : FS) : bool :=
  bool_decide (fs !! p = Some Directory).

Definition isfile (p : string) (fs : FS) : bool :=
  bool_decide (fs !! p = Some Regular).

Fixpoint strip_prefix (pre s : string) : option string :=
  match pre, s with
  | EmptyString, _ => Some s
  | String a pre', String b s' =>
      if bool_decide (a = b) then strip_prefix pre' s' else None
  | String _ _, EmptyString => None
  end.

(** The name under which [p] is listed in directory [d], if it is an entry
    of [d]. *)
Definition child_name (d p : string) : option string :=
  match strip_prefix (join d "") p with
  | Some n =>
      if bool_decide (n = "") || contains "/" n then None else Some n
  | None => None
  end.

(** [os.listdir(d)]. *)
Definition listdir (d : string) (fs : FS) : result (list string) :=
  match fs !! d with
  | Some Directory => inr (omap (child_name d) (map_to_list fs).*1)
  | Some _ => inl NotADirectoryError
  | None => inl FileNotFoundError
  end.

(** [os.remove(p)]. *)
Definition os_remove (p : string) (fs : FS) : result FS :=
  match fs !! p with
  | Some Directory => inl IsADirectoryError
  | Some _ => inr (delete p fs)
  | None => inl FileNotFoundError
  end.

(** The directories above [p], outermost first: the prefixes of [p] that end
    just before a slash.  The root is always there and is not recorded, so
    it is left out, as is a prefix that itself ends in a slash. *)
Fixpoint ancestors (p : string) : list string :=
  match p with
  | EmptyString => []
  | String c p' =>
      let below := String c <$> ancestors p' in
      if starts_with "/" p' && negb (is_sep "/" c)
      then String c EmptyString :: below else below
  end.

(** One step of [os.makedirs] on its way down to the target: a directory is
    entered, a missing one is created first, and anything else in the way
    raises [NotADirectoryError]. *)
Definition enter (a : string) (fs : FS) : result FS :=
  match fs !! a with
  | Some Directory => inr fs
  | Some _ => inl NotADirectoryError
  | None => inr (<[a := Directory]> fs)
  end.

Fixpoint enter_all (above : list string) (fs : FS) : result FS :=
  match above with
  | [] => inr fs
  | a :: rest => fs' ← enter a fs; enter_all rest fs'
  end.

(** [os.makedirs(p, exist_ok=True)].  A directory already at [p] is left as
    it is, and anything else at [p] raises [FileExistsError].  Otherwise the
    missing directories above [p] are created, outermost first, and then [p]
    itself; a regular file or a special node above [p] raises
    [NotADirectoryError]. *)
Definition makedirs (p : string) (fs : FS) : result FS :=
  match fs !! p with
  | Some Directory => inr fs
  | Some _ => inl FileExistsError
  | None =>
      fs' ← enter_all (ancestors p) fs;
      mret (<[p := Directory]> fs')
  end.

(** ** The model collaborator ([medcat.cdb.CDB])

    Only its [save(path)] and [load(path)] matter here.  Either may raise (the
    message is carried along); [save] may change the disk in any way, also
    when it raises.  What [load] makes of the file inside the model is the
    model's own business and is not recorded. *)
Record CDB := {
  cdb_save : string → FS → (string + unit) * FS;
  cdb_load : string → FS → string + unit
}.

(** ** The manager object *)

Record Checkpoint := {
  _dir_path : string;
  _steps : Z;
  _max_to_keep : Z;
  _file_paths : list string;
  _count : Z
}.

Definition with_steps (v : Z) (m : Checkpoint) : Checkpoint :=
  {| _dir_path := _dir_path m; _steps := v; _max_to_keep := _max_to_keep m;
     _file_paths := _file_paths m; _count := _count m |}.

Definition with_max_to_keep (v : Z) (m : Checkpoint) : Checkpoint :=
  {| _dir_path := _dir_path m; _steps := _steps m; _max_to_keep := v;
     _file_paths := _file_paths m; _count := _count m |}.

Definition with_file_paths (l : list string) (m : Checkpoint) : Checkpoint :=
  {| _dir_path := _dir_path m; _steps := _steps m;
     _max_to_keep := _max_to_keep m; _file_paths := l; _count := _count m |}.

Definition with_count (c : Z) (m : Checkpoint) : Checkpoint :=
  {| _dir_path := _dir_path m; _steps := _steps m;
     _max_to_keep := _max_to_keep m; _file_paths := _file_paths m;
     _count := c |}.

(** The read-only properties. *)
Definition steps (m : Checkpoint) : Z := _steps m.
Definition max_to_keep (m : Checkpoint) : Z := _max_to_keep m.
Definition count (m : Checkpoint) : Z := _count m.
Definition dir_path (m : Checkpoint) : string := _dir_path m.

(** What a method runs in: the object it is called on, and the disk. *)
Record World := { self : Checkpoint; disk : FS }.

(** A computation over a state [S]: a result or an exception, and the state
    it leaves.  An exception does not undo what was done before it. *)
Definition Eff (S A : Type) : Type := S → result A * S.

#[global] Instance eff_ret {S} : MRet (Eff S) := λ A x s, (inr x, s).
#[global] Instance eff_bind {S} : MBind (Eff S) := λ A B f c s,
  match c s with
  | (inl e, s') => (inl e, s')
  | (inr x, s') => f x s'
  end.

Definition raise {S A} (e : exn) : Eff S A := λ s, (inl e, s).

(** A pure step that may raise. *)
Definition lift {S A} (r : result A) : Eff S A := λ s, (r, s).

(** Class methods and static methods run on the disk alone, methods on an
    object and the disk. *)
Abbreviation ClassMethod := (Eff FS).
Abbreviation Method := (Eff World).

Definition get_self : Method Checkpoint := λ w, (inr (self w), w).

Definition update_self (f : Checkpoint → Checkpoint) : Method unit :=
  λ w, (inr (), {| self := f (self w); disk := disk w |}).

(** A query of the disk. *)
Definition ask {A} (f : FS → result A) : Method A := λ w, (f (disk w), w).

(** An operating-system call that replaces the disk when it succeeds. *)
Definition os_call (f : FS → result FS) : ClassMethod unit := λ fs,
  match f fs with
  | inl e => (inl e, fs)
  | inr fs' => (inr (), fs')
  end.

(** A class-method step run from within a method. *)
Definition on_disk {A} (c : ClassMethod A) : Method A := λ w,
  let '(r, fs') := c (disk w) in (r, {| self := self w; disk := fs' |}).

(** [cdb.save(path)] and [cdb.load(path)]: what the collaborator raises is
    passed on as it is. *)
Definition call_save (cdb : CDB) (path : string) : ClassMethod unit := λ fs,
  match cdb_save cdb path fs with
  | (inl msg, fs') => (inl (PersistenceFailure msg), fs')
  | (inr _, fs') => (inr (), fs')
  end.

Definition call_load (cdb : CDB) (path : string) : ClassMethod unit := λ fs,
  match cdb_load cdb path fs with
  | inl msg => (inl (PersistenceFailure msg), fs)
  | inr _ => (inr (), fs)
  end.

(** Modelled from the spec: the decorator [check_positive] of
    [medcat.utils.decorators], which is not among the sources.  The
    specification has it reject every value that is zero or negative with
    [InvalidArgument], before the decorated function runs. *)
Definition check_positive (values : list Z) : result unit :=
  if forallb (λ v, bool_decide (0 < v)) values then inr ()
  else inl InvalidArgument.

(** *** Static helpers *)

Definition item (parts : list string) (i : nat) : result string :=
  match parts !! i with
  | Some s => inr s
  | None => inl IndexError
  end.

Definition int (s : string) : result Z :=
  match py_int s with
  | Some n => inr n
  | None => inl ValueError
  end.

Definition _get_steps_and_count (file_path : string) : result (Z * Z) :=
  let file_name_parts := split "-" (basename file_path) in
  s ← item file_name_parts 1 ≫= int;
  c ← item file_name_parts 2 ≫= int;
  mret (s, c).

(** [list.sort(key=...)]: every key is computed first, left to right, and an
    exception raised by the key function leaves [sort].  The sort is stable;
    insertion from the right is the simplest stable sort. *)
Fixpoint keyed {A} (key : A → result Z) (l : list A) : result (list (Z * A)) :=
  match l with
  | [] => inr []
  | x :: l' =>
      k ← key x;
      kl ← keyed key l';
      mret ((k, x) :: kl)
  end.

Fixpoint insert_keyed {A} (x : Z * A) (l : list (Z * A)) : list (Z * A) :=
  match l with
  | [] => [x]
  | y :: l' => if bool_decide (x.1 ≤ y.1) then x :: l else y :: insert_keyed x l'
  end.

Definition sort_keyed {A} (l : list (Z * A)) : list (Z * A) :=
  foldr insert_keyed [] l.

Definition sort_by {A} (key : A → result Z) (l : list A) : result (list A) :=
  kl ← keyed key l;
  mret (sort_keyed kl).*2.

Definition is_ckpt_file (fs : FS) (f : string) : bool :=
  isfile f fs && contains "checkpoint-" f.

Definition _get_ckpt_file_paths (dir_path : string) (fs : FS)
  : result (list string) :=
  names ← listdir dir_path fs;
  let ckpt_file_paths := (λ f, abspath (join dir_path f)) <$> names in
  let ckpt_file_paths := filter (λ f, is_ckpt_file fs f) ckpt_file_paths in
  match ckpt_file_paths with
  | [] => mret ckpt_file_paths
  | _ => sort_by (λ f, snd <$> _get_steps_and_count f) ckpt_file_paths
  end.

(** *** Construction and the two validated setters *)

Definition __init__ (dir_path : string) (steps max_to_keep : Z)
  : ClassMethod Checkpoint :=
  lift (check_positive [steps; max_to_keep]);;
  let m := {| _dir_path := abspath dir_path; _steps := steps;
              _max_to_keep := max_to_keep; _file_paths := []; _count := 0 |} in
  os_call (makedirs (_dir_path m));;
  mret m.

Definition steps_setter (value : Z) : Method unit :=
  lift (check_positive [value]);;
  update_self (with_steps value).

Definition max_to_keep_setter (value : Z) : Method unit :=
  lift (check_positive [value]);;
  update_self (with_max_to_keep value).

(** *** [load], [restore], [purge] *)

Definition load (dir_path : string) : ClassMethod Checkpoint :=
  λ fs,
  (if negb (isdir dir_path fs) then raise NotFound
   else
     ckpt_file_paths ← lift (_get_ckpt_file_paths dir_path fs);
     match last ckpt_file_paths with
     | None => raise NotFound
     | Some latest_ckpt =>
         sc ← lift (_get_steps_and_count latest_ckpt);
         checkpoint ← __init__ dir_path sc.1 1;
         mret (with_count sc.2 (with_file_paths ckpt_file_paths checkpoint))
     end) fs.

Definition restore : Method unit :=
  λ w,
  (if negb (isdir (_dir_path (self w)) (disk w)) then raise NotFound
   else
     ckpt_file_paths ← ask (_get_ckpt_file_paths (_dir_path (self w)));
     match last ckpt_file_paths with
     | None => raise NotFound
     | Some latest_ckpt =>
         sc ← lift (_get_steps_and_count latest_ckpt);
         update_self (with_file_paths ckpt_file_paths);;
         update_self (with_count sc.2)
     end) w.

(** The [for] loop of [purge], on what is left of the list. *)
Fixpoint purge_loop (paths removed : list string)
  : ClassMethod (list string) :=
  match paths with
  | [] => mret removed
  | path :: rest =>
      λ fs,
      (if isfile path fs then
         os_call (os_remove path);;
         purge_loop rest (removed ++ [path])
       else purge_loop rest removed) fs
  end.

Definition purge : Method (list string) :=
  m ← get_self;
  ckpt_file_paths ← ask (_get_ckpt_file_paths (_dir_path m));
  removed ← on_disk (purge_loop ckpt_file_paths []);
  update_self (with_file_paths []);;
  update_self (with_count 0);;
  mret removed.

(** *** [save] *)

(** The [while] loop of [save].  [paths] is the current value of
    [self._file_paths]; each round pops its head, so the loop is a recursion
    on it.  Popping from the empty list raises [IndexError]. *)
Fixpoint evict (paths : list string) : Method unit :=
  λ w,
  (if bool_decide (_max_to_keep (self w) ≤ Z.of_nat (length paths)) then
     match paths with
     | [] => raise IndexError
     | to_remove :: rest =>
         update_self (with_file_paths rest);;
         on_disk (os_call (os_remove to_remove));;
         evict rest
     end
   else mret ()) w.

Definition ckpt_name (steps count : Z) : string :=
  "checkpoint-" +:+ str steps +:+ "-" +:+ str count.

Definition save (cdb : CDB) (count : Z) : Method unit :=
  m ← get_self;
  let ckpt_file_path :=
    join (abspath (_dir_path m)) (ckpt_name (steps m) count) in
  evict (_file_paths m);;
  on_disk (call_save cdb ckpt_file_path);;
  update_self (λ m, with_file_paths (_file_paths m ++ [ckpt_file_path]) m);;
  update_self (with_count count).

(** *** [populate] *)

Definition populate (cdb : CDB) : Method unit :=
  m ← get_self;
  match last (_file_paths m) with
  | None => raise NotRestored
  | Some latest => on_disk (call_load cdb latest)
  end.

Definition restore_and_populate (cdb : CDB) : Method unit :=
  restore;;
  populate cdb.

(** * Vocabulary of the statements *)

(** [c] occurs in [s]. *)
Definition has_char (c : ascii) (s : string) : bool :=
  contains (String c EmptyString) s.

Fixpoint all_digits (s : string) : bool :=
  match s with
  | EmptyString => true
  | String c s' => bool_decide (is_Some (digit_val c)) && all_digits s'
  end.

(** What [join d] puts in front of a name. *)
Definition dir_prefix (d : string) : string := join d "".

(** A name as [os.listdir] returns them. *)
Definition valid_name (n : string) : Prop := n ≠ "" ∧ has_char "/" n = false.

Definition key_le {A} (x y : Z * A) : Prop := x.1 ≤ y.1.

Definition keyed_by {A} (key : A → result Z) (kx : Z * A) : Prop :=
  key kx.2 = inr kx.1.

(** The count embedded in the name of a checkpoint file. *)
Definition count_of (p : string) : result Z := snd <$> _get_steps_and_count p.

(** The name of [p] parses into steps and count. *)
Definition parses (p : string) : bool :=
  match _get_steps_and_count p with
  | inr _ => true
  | inl _ => false
  end.

Fixpoint is_sorted (ks : list Z) : bool :=
  match ks with
  | [] => true
  | k :: ks' =>
      match ks' with
      | [] => true
      | k' :: _ => bool_decide (k ≤ k') && is_sorted ks'
      end
  end.

(** Every path of [l] embeds a count and the counts ascend. *)
Definition sorted_by_count (l : list string) : Prop :=
  match keyed count_of l with
  | inr kl => is_sorted kl.*1 = true
  | inl _ => False
  end.

(** The names [os.listdir d] returns. *)
Definition entries (d : string) (fs : FS) : list string :=
  omap (child_name d) (map_to_list fs).*1.

(** The paths that pass the filter of [_get_ckpt_file_paths], before the
    sort. *)
Definition candidates (d : string) (fs : FS) : list string :=
  filter (λ f, is_ckpt_file fs f) ((λ f, abspath (join d f)) <$> entries d fs).

(** The specification's filter: the regular files of [d] whose _name_
    contains the tag. *)
Definition name_tagged (d : string) (fs : FS) : list string :=
  filter (λ f, isfile f fs && contains "checkpoint-" (basename f))
         ((λ f, abspath (join d f)) <$> entries d fs).

Definition delete_all (ps : list string) (fs : FS) : FS :=
  foldl (λ fs p, delete p fs) fs ps.

(** The object [__init__] builds. *)
Definition new_checkpoint (d : string) (s k : Z) : Checkpoint :=
  {| _dir_path := abspath d; _steps := s; _max_to_keep := k;
     _file_paths := []; _count := 0 |}.

(** ** Calls and runs *)

Inductive call :=
  | Save (cdb : CDB) (count : Z)
  | Restore
  | Purge
  | SetSteps (value : Z)
  | SetMaxToKeep (value : Z)
  | Populate (cdb : CDB).

Definition raised {A} (x : result A * World) : option exn * World :=
  (match x.1 with inl e => Some e | inr _ => None end, x.2).

(** One call on the object: what it raised, if anything, and the world it
    left. *)
Definition exec (c : call) (w : World) : option exn * World :=
  match c with
  | Save cdb n => raised (save cdb n w)
  | Restore => raised (restore w)
  | Purge => raised (purge w)
  | SetSteps v => raised (steps_setter v w)
  | SetMaxToKeep v => raised (max_to_keep_setter v w)
  | Populate cdb => raised (populate cdb w)
  end.

Definition run (cs : list call) (w : World) : World :=
  foldl (λ w c, (exec c w).2) w cs.

(** The worlds a manager can be in: it is built by [__init__] or by [load],
    and then called; between two calls the disk may change under it.
    [allowed] says which calls are considered. *)
Inductive reachable_by (allowed : call → World → Prop) : World → Prop :=
  | reach_init d s k fs m fs' :
      __init__ d s k fs = (inr m, fs') →
      reachable_by allowed {| self := m; disk := fs' |}
  | reach_load d fs m fs' :
      load d fs = (inr m, fs') →
      reachable_by allowed {| self := m; disk := fs' |}
  | reach_call c w :
      reachable_by allowed w → allowed c w →
      reachable_by allowed (exec c w).2
  | reach_disk w fs' :
      reachable_by allowed w →
      reachable_by allowed {| self := self w; disk := fs' |}.

Definition any_call (c : call) (w : World) : Prop := True.

Definition reachable : World → Prop := reachable_by any_call.

(** Every [save] is given a count that is not below the count the manager
    holds. *)
Definition ascending_saves (c : call) (w : World) : Prop :=
  match c with
  | Save _ n => _count (self w) ≤ n
  | _ => True
  end.

(** Every [save] is given a count that is not negative, and returns. *)
Definition completed_saves (c : call) (w : World) : Prop :=
  match c with
  | Save cdb n => 0 ≤ n ∧ (save cdb n w).1 = inr ()
  | _ => True
  end.

(** [count] is the count embedded in the last path, or 0 without paths. *)
Definition count_is_latest (m : Checkpoint) : Prop :=
  match last (_file_paths m) with
  | Some p => count_of p = inr (_count m)
  | None => _count m = 0
  end.



(** ** Collaborators and worlds used as examples *)

(** A model whose [save] writes a regular file and whose [load] needs one. *)
Definition cdb_ok : CDB :=
  {| cdb_save := λ path fs, (inr (), <[path := Regular]> fs);
     cdb_load := λ path fs,
       if isfile path fs then inr () else inl "no such file" |}.

(** A model whose [save] and [load] raise. *)
Definition cdb_broken : CDB :=
  {| cdb_save := λ path fs, (inl "disk full", fs);
     cdb_load := λ path fs, inl "unreadable" |}.

(** A manager just built for [d], on a disk that holds the directory [d]
    and nothing else. *)
Definition fresh (d : string) (s k : Z) : World :=
  {| self := new_checkpoint d s k; disk := {[ abspath d := Directory ]} |}.

(** A directory [d] holding the given nodes. *)
Definition dir_with (d : string) (files : list (string * node)) : FS :=
  foldr (λ f fs, <[join d f.1 := f.2]> fs) {[ d := Directory ]} files.

(** Every call of the run [cs], started in [w], is allowed. *)
Fixpoint allowed_run (allowed : call → World → Prop)
    (cs : list call) (w : World) : Prop :=
  match cs with
  | [] => True
  | c :: cs' => allowed c w ∧ allowed_run allowed cs' (exec c w).2
  end.

(** The tracked paths embed ascending counts, none above [bound]. *)
Definition sorted_below (bound : Z) (l : list string) : Prop :=
  ∃ kl, keyed count_of l = inr kl ∧ is_sorted kl.*1 = true ∧
        Forall (λ k, k ≤ bound) kl.*1.

(** What the two invariants are proved through: [steps] is never negative,
    so that the names [save] writes parse. *)
Definition paths_invariant (m : Checkpoint) : Prop :=
  0 ≤ _steps m ∧ 0 ≤ _count m ∧ sorted_below (_count m) (_file_paths m).

Definition latest_invariant (m : Checkpoint) : Prop :=
  0 ≤ _steps m ∧ count_is_latest m.

(** ** [from_last_training] *)

(** [list.sort()] on strings: Python compares them code point by code point,
    a proper prefix coming first, which is [String.leb]. *)
Fixpoint insert_string (x : string) (l : list string) : list string :=
  match l with
  | [] => [x]
  | y :: l' => if String.leb x y then x :: l else y :: insert_string x l'
  end.

Definition sort_strings (l : list string) : list string :=
  foldr insert_string [] l.

(** Both [raise ValueError(...)] of the method are [ValueError]; the messages
    are not kept. *)
Definition from_last_training (parent_dir_path : string)
  : ClassMethod Checkpoint :=
  λ fs,
  (if negb (isdir parent_dir_path fs) then raise ValueError
   else
     ckpt_parent_folders ← lift (listdir parent_dir_path fs);
     match ckpt_parent_folders with
     | [] => raise ValueError
     | _ =>
         match last (sort_strings ckpt_parent_folders) with
         | None => raise IndexError
         | Some folder =>
             let ckpt_file_path := abspath (join parent_dir_path folder) in
             load ckpt_file_path
         end
     end) fs.

(** ** Vocabulary of the further properties *)

(** The count a path embeds, 0 when its name does not parse. *)
Definition count_key (p : string) : Z :=
  match count_of p with
  | inr k => k
  | inl _ => 0
  end.

(** The name of [p] parses, with positive steps: [load] accepts it as the
    latest checkpoint. *)
Definition well_named (p : string) : Prop :=
  ∃ s c, _get_steps_and_count p = inr (s, c) ∧ 0 < s.

(** The directory holds exactly the checkpoints the manager tracks: the
    tracked paths parse, their counts ascend strictly up to [count], and they
    are the files the scan of the directory selects. *)
Definition consistent (w : World) : Prop :=
  let m := self w in
  isdir (_dir_path m) (disk w) = true ∧
  0 < _steps m ∧ 0 < _max_to_keep m ∧ 0 ≤ _count m ∧
  Forall well_named (_file_paths m) ∧
  StronglySorted (λ p q, count_key p < count_key q) (_file_paths m) ∧
  Forall (λ p, count_key p ≤ _count m) (_file_paths m) ∧
  count_is_latest m ∧
  _file_paths m ≡ₚ candidates (_dir_path m) (disk w).

(** The model's [save] writes a regular file at the path it is given and
    touches nothing else. *)
Definition writes_file (cdb : CDB) : Prop :=
  ∀ path fs, cdb_save cdb path fs = (inr (), <[path := Regular]> fs).

(** Every [save] is given a count above the one the manager holds, and a
    model that writes its file. *)
Definition training_call (c : call) (w : World) : Prop :=
  match c with
  | Save cdb n => _count (self w) < n ∧ writes_file cdb
  | _ => True
  end.

(** * Properties *)

(** ** Strings and paths *)

Example split_examples :
  split "-" "checkpoint-1000-20" = ["checkpoint"; "1000"; "20"] ∧
  split "-" "checkpoint-1000--5" = ["checkpoint"; "1000"; ""; "5"] ∧
  split "-" "README" = ["README"] ∧
  split "-" "" = [""].
Proof. by vm_compute. Qed.

Example path_examples :
  join "/run" "checkpoint-5-10" = "/run/checkpoint-5-10" ∧
  join "/" "run" = "/run" ∧
  join "/run/" "f" = "/run/f" ∧
  basename "/run/checkpoint-5-10" = "checkpoint-5-10" ∧
  basename "/run/" = "" ∧
  basename "plain" = "plain".
Proof. by vm_compute. Qed.

Example int_examples :
  py_int "20" = Some 20 ∧ py_int "007" = Some 7 ∧ py_int " 12 " = Some 12 ∧
  py_int "+1_000" = Some 1000 ∧ py_int "-5" = Some (-5) ∧
  py_int "" = None ∧ py_int "abc" = None ∧ py_int "1__0" = None ∧
  py_int "1_" = None ∧ py_int "+ 1" = None ∧ py_int "1 2" = None.
Proof. by vm_compute. Qed.

Example str_examples : str 1000 = "1000" ∧ str 0 = "0" ∧ str (-5) = "-5".
Proof. by vm_compute. Qed.

Lemma app_nil_l_s (s : string) : "" +:+ s = s.
Proof. reflexivity. Qed.
Lemma app_cons_s a (s t : string) : String a s +:+ t = String a (s +:+ t).
Proof. reflexivity. Qed.
Lemma app_nil_r_s (a : string) : a +:+ "" = a.
Proof. induction a as [|x a IH]; [done |]. by rewrite app_cons_s, IH. Qed.
Lemma app_assoc_s (a b c : string) : (a +:+ b) +:+ c = a +:+ (b +:+ c).
Proof. induction a as [|x a IH]; [done |]. by rewrite !app_cons_s, IH. Qed.

Lemma has_char_cons c a s :
  has_char c (String a s) = bool_decide (c = a) || has_char c s.
Proof. unfold has_char. simpl. by rewrite andb_true_r. Qed.

Lemma has_char_app c a b : has_char c (a +:+ b) = has_char c a || has_char c b.
Proof.
  induction a as [|x a IH]; [done |].
  rewrite app_cons_s, !has_char_cons, IH. by rewrite orb_assoc.
Qed.

Lemma starts_with_app needle s : starts_with needle (needle +:+ s) = true.
Proof.
  induction needle as [|a n IH]; [done |]. rewrite app_cons_s. simpl.
  by rewrite bool_decide_eq_true_2.
Qed.

Lemma contains_app_r needle a b :
  contains needle b = true → contains needle (a +:+ b) = true.
Proof.
  intros Hb. induction a as [|x a IH]; [done |].
  rewrite app_cons_s. simpl. rewrite IH. by rewrite orb_true_r.
Qed.

Lemma contains_starts needle s :
  starts_with needle s = true → contains needle s = true.
Proof. intros H. destruct s; simpl in *; rewrite H; done. Qed.

Lemma contains_intro needle a b : contains needle (a +:+ needle +:+ b) = true.
Proof. apply contains_app_r, contains_starts, starts_with_app. Qed.

Lemma strip_prefix_Some pre s n : strip_prefix pre s = Some n ↔ s = pre +:+ n.
Proof.
  revert s. induction pre as [|a pre IH]; intros s.
  - rewrite app_nil_l_s. simpl. split; congruence.
  - rewrite app_cons_s. simpl. destruct s as [|b s]; [split; discriminate |].
    case_bool_decide as Hab.
    + subst b. rewrite IH. split; [by intros -> | by intros [= ->]].
    + split; [discriminate | intros [= -> _]; done].
Qed.

Lemma starts_with_slash n : starts_with "/" n = true → has_char "/" n = true.
Proof.
  destruct n as [|c n]; [done |]. simpl. rewrite andb_true_r.
  intros H. rewrite has_char_cons, H. done.
Qed.

Lemma join_dir_prefix d n :
  has_char "/" n = false → join d n = dir_prefix d +:+ n.
Proof.
  intros Hn. unfold dir_prefix, join.
  destruct (starts_with "/" n) eqn:Hs.
  { apply starts_with_slash in Hs. congruence. }
  change (starts_with "/" "") with false. cbv iota.
  destruct (bool_decide (d = "") || ends_with "/" d).
  - by rewrite app_nil_r_s.
  - by rewrite app_nil_r_s, app_assoc_s.
Qed.

Lemma ends_with_app_char c a : ends_with c (a +:+ String c "") = true.
Proof.
  induction a as [|x a IH]; [simpl; by rewrite bool_decide_eq_true_2 |].
  rewrite app_cons_s. simpl.
  destruct (a +:+ String c "") eqn:E; [by destruct a | done].
Qed.

Lemma dir_prefix_shape d :
  dir_prefix d = "" ∨ ends_with "/" (dir_prefix d) = true.
Proof.
  unfold dir_prefix, join. change (starts_with "/" "") with false. cbv iota.
  case_bool_decide as Hd; simpl.
  - left. by subst d.
  - right. destruct (ends_with "/" d) eqn:E.
    + by rewrite app_nil_r_s.
    + apply ends_with_app_char.
Qed.

Lemma basename_no_slash n : has_char "/" n = false → basename n = n.
Proof.
  destruct n as [|c n]; [done |]. rewrite has_char_cons.
  intros [Hc Hn]%orb_false_iff. simpl. fold (has_char "/" n). rewrite Hn.
  apply bool_decide_eq_false in Hc.
  unfold is_sep. case_bool_decide; [by subst | done].
Qed.

Lemma ends_with_has_char c s : ends_with c s = true → has_char c s = true.
Proof.
  induction s as [|a s IH]; [done |]. rewrite has_char_cons. simpl.
  destruct s as [|b s].
  - intros ->%bool_decide_eq_true. by rewrite bool_decide_eq_true_2.
  - intros H. rewrite IH by done. apply orb_true_r.
Qed.

Lemma basename_app p n :
  (p = "" ∨ ends_with "/" p = true) → has_char "/" n = false →
  basename (p +:+ n) = n.
Proof.
  intros Hp Hn. induction p as [|c p IH].
  - by apply basename_no_slash.
  - destruct Hp as [|Hp]; [done |].
    rewrite app_cons_s. simpl.
    fold (has_char "/" (p +:+ n)). rewrite has_char_app, Hn, orb_false_r.
    destruct p as [|b p].
    + simpl in *. unfold is_sep. apply bool_decide_eq_true in Hp as ->.
      change (has_char "/" "") with false. cbv iota.
      by rewrite bool_decide_eq_true_2.
    + rewrite (ends_with_has_char "/" (String b p)) by done.
      apply IH. by right.
Qed.

Lemma basename_join d n : has_char "/" n = false → basename (join d n) = n.
Proof.
  intros Hn. rewrite join_dir_prefix by done.
  apply basename_app; [apply dir_prefix_shape | done].
Qed.

Lemma child_name_Some d p n :
  child_name d p = Some n ↔ p = join d n ∧ n ≠ "" ∧ has_char "/" n = false.
Proof.
  unfold child_name. fold (dir_prefix d). split.
  - destruct (strip_prefix (dir_prefix d) p) as [m|] eqn:E; [|done].
    apply strip_prefix_Some in E. subst p. fold (has_char "/" m).
    case_bool_decide as Hm; simpl; [done |].
    destruct (has_char "/" m) eqn:Hs; [done |].
    intros [= <-]. by rewrite join_dir_prefix.
  - intros (-> & Hn & Hs). rewrite join_dir_prefix by done.
    assert (strip_prefix (dir_prefix d) (dir_prefix d +:+ n) = Some n) as ->
      by by apply strip_prefix_Some.
    fold (has_char "/" n). rewrite Hs, bool_decide_eq_false_2 by done. done.
Qed.

Lemma join_inj d n1 n2 :
  has_char "/" n1 = false → has_char "/" n2 = false →
  join d n1 = join d n2 → n1 = n2.
Proof.
  intros H1 H2. rewrite !join_dir_prefix by done. apply (inj _).
Qed.

(** ** Reading and writing integers *)
Lemma all_digits_uint d : all_digits (NilEmpty.string_of_uint d) = true.
Proof. induction d; simpl; rewrite ?IHd; done. Qed.

Lemma digit_not c x :
  digit_val x = None → is_Some (digit_val c) → bool_decide (x = c) = false.
Proof. intros Hx [v Hc]. apply bool_decide_eq_false. intros ->. congruence. Qed.

Lemma all_digits_has_char x s :
  digit_val x = None → all_digits s = true → has_char x s = false.
Proof.
  intros Hx. induction s as [|c s IH]; [done |]. simpl.
  intros [Hc Hs]%andb_true_iff. apply bool_decide_eq_true in Hc.
  rewrite has_char_cons, IH by done. by rewrite (digit_not c x).
Qed.

Lemma digit_not_space c : is_Some (digit_val c) → is_space c = false.
Proof.
  intros [v Hv].
  destruct c as [[] [] [] [] [] [] [] []]; vm_compute in Hv |- *; congruence.
Qed.

Lemma lstrip_digits s : all_digits s = true → lstrip s = s.
Proof.
  destruct s as [|c s]; [done |]. simpl.
  intros [Hc _]%andb_true_iff. apply bool_decide_eq_true in Hc.
  by rewrite digit_not_space.
Qed.

Lemma rstrip_digits s : all_digits s = true → rstrip s = s.
Proof.
  induction s as [|c s IH]; [done |]. simpl.
  intros [Hc Hs]%andb_true_iff. apply bool_decide_eq_true in Hc.
  rewrite IH by done. rewrite digit_not_space by done. by destruct s.
Qed.

Lemma digits_acc_uint d acc :
  digits_acc (Z.pos acc) (NilEmpty.string_of_uint d)
  = Some (Z.pos (Pos.of_uint_acc d acc)).
Proof.
  revert acc. induction d; intros acc; simpl; [done | ..];
    rewrite <- IHd; f_equal; lia.
Qed.

Lemma digits_acc_uint0 d :
  digits_acc 0 (NilEmpty.string_of_uint d) = Some (Z.of_N (Pos.of_uint d)).
Proof.
  induction d; simpl; [done | done | ..]; apply digits_acc_uint.
Qed.

Lemma digits_digits_acc s :
  all_digits s = true → s ≠ "" → digits s = digits_acc 0 s.
Proof.
  destruct s as [|c s]; [done |]. simpl.
  intros [Hc _]%andb_true_iff _. apply bool_decide_eq_true in Hc as [v Hv].
  by rewrite Hv.
Qed.

Lemma py_int_digits s :
  all_digits s = true → s ≠ "" → py_int s = digits_acc 0 s.
Proof.
  intros Hs Hne. unfold py_int. rewrite lstrip_digits, rstrip_digits by done.
  rewrite <- digits_digits_acc by done.
  destruct s as [|c s]; [done |]. simpl in Hs.
  apply andb_true_iff in Hs as [Hc _]. apply bool_decide_eq_true in Hc as [v Hv].
  destruct c as [[] [] [] [] [] [] [] []]; vm_compute in Hv;
    (discriminate || reflexivity).
Qed.

Lemma string_of_pos_nonempty p : NilEmpty.string_of_uint (Pos.to_uint p) ≠ "".
Proof.
  intros H. pose proof (DecimalPos.Unsigned.of_to p) as E.
  destruct (Pos.to_uint p); simpl in H; discriminate.
Qed.

Lemma str_pos p : str (Z.pos p) = NilEmpty.string_of_uint (Pos.to_uint p).
Proof.
  unfold str. simpl. pose proof (string_of_pos_nonempty p).
  destruct (Pos.to_uint p); simpl in *; done.
Qed.

Lemma str_neg p : str (Z.neg p) = String "-" (str (Z.pos p)).
Proof. rewrite str_pos. unfold str. simpl. f_equal.
  pose proof (string_of_pos_nonempty p).
  destruct (Pos.to_uint p); simpl in *; done.
Qed.

Lemma str_nonneg_digits n : 0 ≤ n → all_digits (str n) = true ∧ str n ≠ "".
Proof.
  destruct n as [|p|p]; [done | | lia]. intros _. rewrite str_pos.
  split; [apply all_digits_uint | apply string_of_pos_nonempty].
Qed.

Lemma py_int_str_nonneg n : 0 ≤ n → py_int (str n) = Some n.
Proof.
  intros Hn. destruct (str_nonneg_digits n Hn) as [Hd Hne].
  rewrite py_int_digits by done.
  destruct n as [|p|p]; [done | | lia].
  rewrite str_pos, digits_acc_uint0, DecimalPos.Unsigned.of_to. done.
Qed.

Lemma py_int_str n : py_int (str n) = Some n.
Proof.
  destruct (decide (0 ≤ n)) as [|Hn]; [by apply py_int_str_nonneg |].
  destruct n as [|p|p]; [lia | lia |]. rewrite str_neg.
  destruct (str_nonneg_digits (Z.pos p)) as [Hd Hne]; [lia |].
  unfold py_int.
  assert (lstrip (String "-" (str (Z.pos p))) = String "-" (str (Z.pos p))) as -> by done.
  assert (rstrip (String "-" (str (Z.pos p))) = String "-" (str (Z.pos p))) as ->.
  { simpl. rewrite rstrip_digits by done. by destruct (str (Z.pos p)). }
  rewrite digits_digits_acc by done.
  rewrite <- py_int_digits by done. rewrite py_int_str_nonneg by lia. done.
Qed.

Lemma str_no_slash n : has_char "/" (str n) = false.
Proof.
  destruct n as [|p|p]; [done | |].
  - apply all_digits_has_char; [done |]. apply str_nonneg_digits. lia.
  - rewrite str_neg, has_char_cons. simpl.
    apply all_digits_has_char; [done |]. apply str_nonneg_digits. lia.
Qed.

(** ** Splitting a file name *)
Lemma split_no_sep sep s : has_char sep s = false → split sep s = [s].
Proof.
  induction s as [|c s IH]; [done |]. rewrite has_char_cons.
  intros [Hc Hs]%orb_false_iff. simpl. unfold is_sep.
  apply bool_decide_eq_false in Hc.
  rewrite bool_decide_eq_false_2 by congruence. by rewrite IH.
Qed.

Lemma split_app sep a b :
  has_char sep a = false → split sep (a +:+ String sep b) = a :: split sep b.
Proof.
  induction a as [|c a IH].
  - intros _. rewrite app_nil_l_s. simpl. unfold is_sep.
    by rewrite bool_decide_eq_true_2.
  - rewrite has_char_cons. intros [Hc Ha]%orb_false_iff.
    rewrite app_cons_s. simpl. unfold is_sep.
    apply bool_decide_eq_false in Hc.
    rewrite bool_decide_eq_false_2 by congruence. by rewrite IH.
Qed.

Lemma split_head sep b : split sep (String sep b) = "" :: split sep b.
Proof. apply (split_app sep ""). done. Qed.

Lemma ckpt_name_no_slash s c : has_char "/" (ckpt_name s c) = false.
Proof.
  unfold ckpt_name. rewrite !has_char_app, !str_no_slash. done.
Qed.

Lemma ckpt_name_nonempty s c : ckpt_name s c ≠ "".
Proof. done. Qed.

Lemma split_ckpt_name s c :
  split "-" (ckpt_name s c)
  = "checkpoint" :: split "-" (str s +:+ String "-" (str c)).
Proof. apply (split_app "-" "checkpoint"). done. Qed.

Lemma get_steps_and_count_name d s c :
  0 ≤ s → 0 ≤ c → _get_steps_and_count (join d (ckpt_name s c)) = inr (s, c).
Proof.
  intros Hs Hc. unfold _get_steps_and_count.
  rewrite basename_join by apply ckpt_name_no_slash.
  rewrite split_ckpt_name.
  destruct (str_nonneg_digits s Hs) as [Hds _].
  destruct (str_nonneg_digits c Hc) as [Hdc _].
  rewrite split_app by (by apply all_digits_has_char).
  rewrite split_no_sep by (by apply all_digits_has_char).
  simpl. unfold int. rewrite !py_int_str. done.
Qed.

Lemma get_steps_and_count_negative d s c :
  c < 0 → _get_steps_and_count (join d (ckpt_name s c)) = inl ValueError.
Proof.
  intros Hc. unfold _get_steps_and_count.
  rewrite basename_join by apply ckpt_name_no_slash.
  rewrite split_ckpt_name.
  destruct c as [|q|q]; [lia | lia |]. rewrite str_neg.
  destruct (decide (0 ≤ s)) as [Hs|Hs].
  - destruct (str_nonneg_digits s Hs) as [Hds _].
    rewrite split_app by (by apply all_digits_has_char).
    rewrite split_head.
    simpl. unfold int. rewrite !py_int_str. done.
  - destruct s as [|p|p]; [lia | lia |]. rewrite str_neg.
    rewrite app_cons_s, split_head. done.
Qed.

(** ** A field cut out by [split "-"] never reads as a negative number *)

Lemma split_no_sep_inside sep s :
  Forall (λ x, has_char sep x = false) (split sep s).
Proof.
  induction s as [|c s IH]; [by repeat constructor |]. simpl.
  unfold is_sep. case_bool_decide as Hc.
  - by constructor.
  - destruct (split sep s) as [|h t].
    { constructor; [| done].
      by rewrite has_char_cons, bool_decide_eq_false_2 by congruence. }
    apply Forall_cons in IH as [Hh Ht]. constructor; [| done].
    rewrite has_char_cons, Hh. by rewrite bool_decide_eq_false_2 by congruence.
Qed.

Lemma has_char_lstrip c s : has_char c s = false → has_char c (lstrip s) = false.
Proof.
  induction s as [|a s IH]; [done |]. simpl. destruct (is_space a); [| done].
  rewrite has_char_cons. intros [_ Hs]%orb_false_iff. by apply IH.
Qed.

Lemma has_char_rstrip c s : has_char c s = false → has_char c (rstrip s) = false.
Proof.
  induction s as [|a s IH]; [done |]. simpl. rewrite has_char_cons.
  intros [Ha Hs]%orb_false_iff. specialize (IH Hs).
  destruct (rstrip s) as [|b r].
  - destruct (is_space a); [done |]. by rewrite has_char_cons, Ha.
  - by rewrite has_char_cons, Ha, IH.
Qed.

Lemma digit_val_range c d : digit_val c = Some d → 0 ≤ d ≤ 9.
Proof.
  unfold digit_val. cbv zeta.
  destruct (48 <=? Z.of_N (N_of_ascii c)) eqn:H1; [| done].
  destruct (Z.of_N (N_of_ascii c) <=? 57) eqn:H2; [| done].
  simpl. intros [= <-]. lia.
Qed.

Lemma digits_acc_nonneg_upto n s acc k :
  (String.length s ≤ n)%nat → digits_acc acc s = Some k → 0 ≤ acc → 0 ≤ k.
Proof.
  revert s acc. induction n as [|n IH]; intros s acc Hlen;
    destruct s as [|c s]; simpl in *; try lia.
  - by intros [= <-].
  - by intros [= <-].
  - destruct (digit_val c) as [d|] eqn:Hd.
    + intros Hk Hacc. apply digit_val_range in Hd.
      apply IH in Hk; [done | lia | lia].
    + destruct (is_sep "_" c); [| done]. destruct s as [|c' s]; [done |].
      destruct (digit_val c') as [d|] eqn:Hd'; [| done].
      intros Hk Hacc. apply digit_val_range in Hd'.
      apply IH in Hk; [done | simpl in *; lia | lia].
Qed.

Lemma digits_acc_nonneg s acc k :
  digits_acc acc s = Some k → 0 ≤ acc → 0 ≤ k.
Proof. by apply (digits_acc_nonneg_upto (String.length s)). Qed.

Lemma digits_nonneg s k : digits s = Some k → 0 ≤ k.
Proof.
  destruct s as [|c s]; [done |]. simpl.
  destruct (digit_val c) as [d|] eqn:Hd; [| done].
  intros Hk. apply digit_val_range in Hd.
  apply digits_acc_nonneg in Hk; [done | lia].
Qed.

Lemma py_int_nonneg s k : has_char "-" s = false → py_int s = Some k → 0 ≤ k.
Proof.
  intros Hs%has_char_lstrip%has_char_rstrip. unfold py_int.
  destruct (rstrip (lstrip s)) as [|c t]; [done |].
  rewrite has_char_cons in Hs. apply orb_false_iff in Hs as [Hc _].
  apply bool_decide_eq_false in Hc.
  destruct c as [[] [] [] [] [] [] [] []];
    try (by apply digits_nonneg); done.
Qed.

Lemma count_of_nonneg p k : count_of p = inr k → 0 ≤ k.
Proof.
  unfold count_of, _get_steps_and_count, item, int.
  pose proof (split_no_sep_inside "-" (basename p)) as Hparts.
  destruct (split "-" (basename p) !! 1%nat) as [s1|]; simpl; [| done].
  destruct (py_int s1); simpl; [| done].
  destruct (split "-" (basename p) !! 2%nat) as [s2|] eqn:H2; simpl; [| done].
  destruct (py_int s2) as [c|] eqn:Hc; simpl; [| done].
  intros [= <-]. apply (py_int_nonneg s2); [| done].
  rewrite Forall_forall in Hparts. apply Hparts.
  by eapply list_elem_of_lookup_2.
Qed.

(** ** A needle without a slash cannot straddle the separator of a path *)
Lemma starts_with_nil_r t : t ≠ "" → starts_with t "" = false.
Proof. by destruct t. Qed.

Lemma contains_nil_r t : t ≠ "" → contains t "" = false.
Proof. by destruct t. Qed.

Lemma starts_with_app_slash t x n :
  has_char "/" t = false → ends_with "/" x = true →
  starts_with t (x +:+ n) = starts_with t x.
Proof.
  revert x. induction t as [|a t IH]; intros x Ht Hx; [done |].
  rewrite has_char_cons in Ht. apply orb_false_iff in Ht as [Ha Ht].
  destruct x as [|b x]; [done |]. rewrite app_cons_s. simpl.
  destruct x as [|b' x].
  - simpl in Hx. apply bool_decide_eq_true in Hx as ->.
    apply bool_decide_eq_false in Ha.
    rewrite !bool_decide_eq_false_2 by congruence. done.
  - rewrite IH by done. done.
Qed.

Lemma contains_cons t b x :
  contains t (String b x) = starts_with t (String b x) || contains t x.
Proof. done. Qed.

Lemma contains_app_slash t x n :
  t ≠ "" → has_char "/" t = false → x = "" ∨ ends_with "/" x = true →
  contains t (x +:+ n) = contains t x || contains t n.
Proof.
  intros Hne Ht. induction x as [|b x IH]; intros Hx.
  - by rewrite app_nil_l_s, contains_nil_r.
  - destruct Hx as [|Hx]; [done |].
    rewrite app_cons_s, !contains_cons, <- app_cons_s.
    rewrite starts_with_app_slash by done. rewrite <- orb_assoc. f_equal.
    destruct x as [|b' x].
    + by rewrite app_nil_l_s, contains_nil_r.
    + apply IH. by right.
Qed.

Lemma starts_with_snoc_slash t y :
  t ≠ "" → has_char "/" t = false →
  starts_with t (y +:+ "/") = starts_with t y.
Proof.
  revert y. induction t as [|a t IH]; intros y Hne Ht; [done |].
  rewrite has_char_cons in Ht. apply orb_false_iff in Ht as [Ha Ht].
  apply bool_decide_eq_false in Ha.
  destruct y as [|b y].
  - rewrite app_nil_l_s. simpl. by rewrite bool_decide_eq_false_2 by congruence.
  - rewrite app_cons_s. simpl. destruct t as [|a' t]; [done |].
    by rewrite IH.
Qed.

Lemma contains_snoc_slash t d :
  t ≠ "" → has_char "/" t = false → contains t (d +:+ "/") = contains t d.
Proof.
  intros Hne Ht. induction d as [|b d IH].
  - rewrite app_nil_l_s. destruct t as [|a t]; [done |].
    rewrite has_char_cons in Ht. apply orb_false_iff in Ht as [Ha _].
    apply bool_decide_eq_false in Ha. simpl.
    by rewrite bool_decide_eq_false_2 by congruence.
  - rewrite app_cons_s, !contains_cons, <- app_cons_s.
    by rewrite starts_with_snoc_slash, IH.
Qed.

Lemma contains_dir_prefix t d :
  t ≠ "" → has_char "/" t = false → contains t (dir_prefix d) = contains t d.
Proof.
  intros Hne Ht. unfold dir_prefix, join.
  change (starts_with "/" "") with false. cbv iota.
  destruct (bool_decide (d = "") || ends_with "/" d).
  - by rewrite app_nil_r_s.
  - rewrite app_nil_r_s. by apply contains_snoc_slash.
Qed.

Lemma contains_join t d n :
  t ≠ "" → has_char "/" t = false → has_char "/" n = false →
  contains t (join d n) = contains t d || contains t n.
Proof.
  intros Hne Ht Hn. rewrite join_dir_prefix by done.
  rewrite contains_app_slash by (done || apply dir_prefix_shape).
  by rewrite contains_dir_prefix.
Qed.

(** ** The stable sort *)

Lemma insert_keyed_perm {A} (x : Z * A) l : insert_keyed x l ≡ₚ x :: l.
Proof.
  induction l as [|y l IH]; simpl; [done |].
  case_bool_decide; [done |]. rewrite IH. apply Permutation_swap.
Qed.

Lemma sort_keyed_perm {A} (l : list (Z * A)) : sort_keyed l ≡ₚ l.
Proof.
  induction l as [|x l IH]; simpl; [done |].
  rewrite insert_keyed_perm. by rewrite IH.
Qed.

Lemma insert_keyed_sorted {A} (x : Z * A) l :
  StronglySorted key_le l → StronglySorted key_le (insert_keyed x l).
Proof.
  induction 1 as [|y l Hl IH Hy]; simpl.
  - repeat constructor.
  - case_bool_decide as Hxy.
    + constructor; [by constructor |]. constructor; [done |].
      eapply Forall_impl; [exact Hy |]. unfold key_le. intros; lia.
    + constructor; [done |]. rewrite insert_keyed_perm.
      constructor; [unfold key_le; lia | done].
Qed.

Lemma sort_keyed_sorted {A} (l : list (Z * A)) :
  StronglySorted key_le (sort_keyed l).
Proof.
  induction l as [|x l IH]; simpl; [constructor | by apply insert_keyed_sorted].
Qed.

Lemma is_sorted_strongly ks : is_sorted ks = true ↔ StronglySorted Z.le ks.
Proof.
  induction ks as [|k ks IH]; [split; [constructor | done] |].
  simpl. destruct ks as [|k' ks].
  - split; [repeat constructor | done].
  - rewrite andb_true_iff, bool_decide_eq_true, IH. split.
    + intros [Hk Hs]. constructor; [done |]. constructor; [done |].
      apply StronglySorted_inv in Hs as [_ Hs].
      eapply Forall_impl; [exact Hs |]. simpl. intros; lia.
    + intros [Hs Hk]%StronglySorted_inv. split; [| done].
      by apply Forall_cons in Hk as [? _].
Qed.

Lemma strongly_sorted_fst {A} (kl : list (Z * A)) :
  StronglySorted key_le kl → StronglySorted Z.le kl.*1.
Proof.
  induction 1 as [|x l Hl IH Hx]; simpl; constructor; [done |].
  by apply Forall_fmap.
Qed.

(** ** Keys *)

Section keys.
Context {A : Type} (key : A → result Z).

Lemma keyed_inr l kl :
  keyed key l = inr kl → kl.*2 = l ∧ Forall (keyed_by key) kl.
Proof.
  revert kl. induction l as [|x l IH]; intros kl; simpl.
  - intros [= <-]. done.
  - destruct (key x) as [e|k] eqn:Hk; [done |]. simpl.
    destruct (keyed key l) as [e|kl'] eqn:Hl; [done |]. simpl.
    intros [= <-]. destruct (IH kl' eq_refl) as [<- HF].
    split; [done |]. by constructor.
Qed.

Lemma keyed_of_keyed_by kl :
  Forall (keyed_by key) kl → keyed key kl.*2 = inr kl.
Proof.
  induction 1 as [|[k x] kl Hx _ IH]; [done |].
  unfold keyed_by in Hx. rewrite fmap_cons. simpl in *. by rewrite Hx, IH.
Qed.

Lemma keyed_inl l e :
  keyed key l = inl e → ∃ x, x ∈ l ∧ key x = inl e.
Proof.
  induction l as [|x l IH]; simpl; [done |].
  destruct (key x) as [e'|k] eqn:Hk; simpl.
  - intros [= <-]. exists x. split; [left | done].
  - destruct (keyed key l) as [e'|kl']; simpl; [| done].
    intros [= <-]. destruct (IH eq_refl) as (y & Hy & Hky).
    exists y. split; [by right | done].
Qed.

Lemma keyed_total l :
  Forall (λ x, ∃ k, key x = inr k) l → ∃ kl, keyed key l = inr kl.
Proof.
  induction 1 as [|x l [k Hk] _ [kl IH]]; simpl; [by eexists |].
  rewrite Hk, IH. simpl. by eexists.
Qed.

Lemma sort_by_inr l l' :
  sort_by key l = inr l' →
  l' ≡ₚ l ∧ ∃ kl, keyed key l' = inr kl ∧ is_sorted kl.*1 = true.
Proof.
  unfold sort_by. destruct (keyed key l) as [e|kl] eqn:Hk; [done |]. simpl.
  intros [= <-]. destruct (keyed_inr _ _ Hk) as [Hl HF]. split.
  - rewrite <- Hl. apply fmap_Permutation, sort_keyed_perm.
  - exists (sort_keyed kl). split.
    + apply keyed_of_keyed_by. by rewrite sort_keyed_perm.
    + apply is_sorted_strongly, strongly_sorted_fst, sort_keyed_sorted.
Qed.

Lemma sort_by_inl l e :
  sort_by key l = inl e → ∃ x, x ∈ l ∧ key x = inl e.
Proof.
  unfold sort_by. destruct (keyed key l) as [e'|kl] eqn:Hk; [| done]. simpl.
  intros [= <-]. by apply keyed_inl.
Qed.

Lemma sort_by_total l :
  Forall (λ x, ∃ k, key x = inr k) l → ∃ l', sort_by key l = inr l'.
Proof.
  intros [kl Hkl]%keyed_total. unfold sort_by. rewrite Hkl. simpl. by eexists.
Qed.

End keys.

(** ** Directory entries *)

Lemma elem_of_entries d fs n :
  n ∈ entries d fs ↔ is_Some (fs !! join d n) ∧ valid_name n.
Proof.
  unfold entries. rewrite list_elem_of_omap. split.
  - intros (p & Hp & Hn). apply child_name_Some in Hn as (-> & Hn).
    split; [| done]. apply list_elem_of_fmap in Hp as ([p k] & -> & Hp).
    apply elem_of_map_to_list in Hp. by exists k.
  - intros ([k Hk] & Hn). exists (join d n). split.
    + apply list_elem_of_fmap. exists (join d n, k). split; [done |].
      by apply elem_of_map_to_list.
    + by apply child_name_Some.
Qed.

Lemma NoDup_omap_inj {A B} (f : A → option B) l :
  (∀ x y z, f x = Some z → f y = Some z → x = y) →
  NoDup l → NoDup (omap f l).
Proof.
  intros Hf. induction 1 as [|x l Hx Hl IH]; simpl; [constructor |].
  destruct (f x) as [z|] eqn:Hz; [| done].
  constructor; [| done]. rewrite list_elem_of_omap.
  intros (y & Hy & Hfy). by rewrite (Hf x y z) in Hx.
Qed.

Lemma NoDup_entries d fs : NoDup (entries d fs).
Proof.
  apply NoDup_omap_inj; [| apply NoDup_fst_map_to_list].
  intros x y z Hx%child_name_Some Hy%child_name_Some.
  destruct Hx as [-> _], Hy as [-> _]. done.
Qed.

Lemma elem_of_candidates d fs p :
  p ∈ candidates d fs ↔
  ∃ n, p = join d n ∧ valid_name n ∧
       fs !! p = Some Regular ∧ contains "checkpoint-" p = true.
Proof.
  unfold candidates. rewrite list_elem_of_filter, list_elem_of_fmap.
  unfold is_ckpt_file, isfile, abspath. split.
  - intros [Hf (n & -> & Hn)]. apply elem_of_entries in Hn as [_ Hn].
    apply Is_true_true, andb_true_iff in Hf as [Hf%bool_decide_eq_true Ht].
    by exists n.
  - intros (n & -> & Hn & Hf & Ht). split.
    + apply Is_true_true, andb_true_iff. by rewrite bool_decide_eq_true.
    + exists n. split; [done |]. apply elem_of_entries. by rewrite Hf.
Qed.

Lemma NoDup_candidates d fs : NoDup (candidates d fs).
Proof.
  apply NoDup_filter, NoDup_fmap_2_strong; [| apply NoDup_entries].
  intros n1 n2 [_ [_ H1]]%elem_of_entries [_ [_ H2]]%elem_of_entries.
  unfold abspath. by apply join_inj.
Qed.

Lemma candidates_isfile d fs p : p ∈ candidates d fs → isfile p fs = true.
Proof.
  intros (n & _ & _ & Hf & _)%elem_of_candidates.
  by apply bool_decide_eq_true.
Qed.

(** ** Checkpoint discovery *)
Lemma count_of_error p e : count_of p = inl e → CorruptCheckpointName e.
Proof.
  unfold count_of, _get_steps_and_count, item, int, CorruptCheckpointName.
  destruct (split "-" (basename p) !! 1%nat) as [s1|]; simpl; [| naive_solver].
  destruct (py_int s1); simpl; [| naive_solver].
  destruct (split "-" (basename p) !! 2%nat) as [s2|]; simpl; [| naive_solver].
  destruct (py_int s2); simpl; [done | naive_solver].
Qed.

Lemma count_of_inr p k :
  count_of p = inr k ↔ ∃ s, _get_steps_and_count p = inr (s, k).
Proof.
  unfold count_of. destruct (_get_steps_and_count p) as [e|[s c]]; simpl.
  - split; [done | by intros [? ?]].
  - split; [intros [= <-]; by eexists | by intros [? [= _ ->]]].
Qed.

Lemma get_ckpt_file_paths_unfold d fs :
  _get_ckpt_file_paths d fs =
  match fs !! d with
  | Some Directory =>
      match candidates d fs with
      | [] => inr []
      | l => sort_by count_of l
      end
  | Some _ => inl NotADirectoryError
  | None => inl FileNotFoundError
  end.
Proof.
  unfold _get_ckpt_file_paths, listdir. fold (entries d fs).
  destruct (fs !! d) as [[]|]; try done. simpl. fold (candidates d fs).
  by destruct (candidates d fs).
Qed.

Lemma sorted_by_count_nil : sorted_by_count [].
Proof. done. Qed.

Lemma get_ckpt_file_paths_inr d fs l :
  _get_ckpt_file_paths d fs = inr l →
  isdir d fs = true ∧ l ≡ₚ candidates d fs ∧ sorted_by_count l.
Proof.
  rewrite get_ckpt_file_paths_unfold. unfold isdir.
  destruct (fs !! d) as [[]|]; try done.
  rewrite bool_decide_eq_true_2 by done.
  destruct (candidates d fs) as [|p ps] eqn:E.
  - intros [= <-]. done.
  - intros (Hp & kl & Hk & Hs)%sort_by_inr. split; [done |]. split; [done |].
    unfold sorted_by_count. by rewrite Hk.
Qed.

Lemma get_ckpt_file_paths_inl d fs e :
  _get_ckpt_file_paths d fs = inl e →
  (isdir d fs = false ∧ (e = FileNotFoundError ∨ e = NotADirectoryError)) ∨
  (isdir d fs = true ∧ ∃ p, p ∈ candidates d fs ∧ count_of p = inl e).
Proof.
  rewrite get_ckpt_file_paths_unfold. unfold isdir.
  destruct (fs !! d) as [[]|] eqn:Hd.
  1,3,4: rewrite bool_decide_eq_false_2 by congruence; intros [= <-]; left; auto.
  rewrite bool_decide_eq_true_2 by done. right. split; [done |].
  destruct (candidates d fs) as [|p ps] eqn:E; [done |].
  by apply sort_by_inl.
Qed.

Lemma get_ckpt_file_paths_corrupt d fs p e :
  isdir d fs = true → p ∈ candidates d fs → count_of p = inl e →
  ∃ e', _get_ckpt_file_paths d fs = inl e' ∧ CorruptCheckpointName e'.
Proof.
  intros Hd Hp He.
  destruct (_get_ckpt_file_paths d fs) as [e'|l] eqn:E.
  - exists e'. split; [done |].
    apply get_ckpt_file_paths_inl in E as [[Hd' _]|(_ & q & _ & Hq)];
      [congruence | by eapply count_of_error].
  - apply get_ckpt_file_paths_inr in E as (_ & Hperm & Hs).
    rewrite <- Hperm in Hp. unfold sorted_by_count in Hs.
    destruct (keyed count_of l) as [|kl] eqn:Hk; [done |].
    apply keyed_inr in Hk as [<- HF].
    apply list_elem_of_fmap in Hp as ([k q] & -> & Hq).
    rewrite Forall_forall in HF. apply HF in Hq. unfold keyed_by in Hq.
    simpl in *. congruence.
Qed.

Lemma get_ckpt_file_paths_total d fs :
  isdir d fs = true →
  Forall (λ p, ∃ k, count_of p = inr k) (candidates d fs) →
  ∃ l, _get_ckpt_file_paths d fs = inr l.
Proof.
  intros Hd%bool_decide_eq_true HF. rewrite get_ckpt_file_paths_unfold, Hd.
  destruct (candidates d fs) as [|p ps] eqn:E; [by eexists |].
  by apply sort_by_total.
Qed.

(** ** The methods, unfolded *)

(** Exposes the plumbing of [Eff], leaving matches on the calls made. *)
Ltac eff_unfold :=
  unfold mbind, eff_bind, mret, eff_ret, lift, raise, ask, on_disk, os_call,
    get_self, update_self, call_save, call_load.

Lemma check_positive_ok vs :
  Forall (λ v, 0 < v) vs → check_positive vs = inr ().
Proof.
  intros H. unfold check_positive.
  replace (forallb _ vs) with true; [done |]. symmetry.
  apply forallb_forall. intros v Hv%list_elem_of_In.
  rewrite Forall_forall in H. apply bool_decide_eq_true. by apply H.
Qed.

Lemma check_positive_fail vs v :
  v ∈ vs → v ≤ 0 → check_positive vs = inl InvalidArgument.
Proof.
  intros Hv Hle. unfold check_positive.
  destruct (forallb _ vs) eqn:E; [| done].
  rewrite forallb_forall in E. apply list_elem_of_In, E in Hv.
  apply bool_decide_eq_true in Hv. lia.
Qed.

Lemma init_unfold d s k fs :
  __init__ d s k fs =
  match check_positive [s; k] with
  | inl e => (inl e, fs)
  | inr _ =>
      match makedirs (abspath d) fs with
      | inl e => (inl e, fs)
      | inr fs' => (inr (new_checkpoint d s k), fs')
      end
  end.
Proof.
  unfold __init__. eff_unfold. simpl.
  destruct (check_positive [s; k]); [done |].
  by destruct (makedirs (abspath d) fs).
Qed.

Lemma makedirs_isdir p fs : isdir p fs = true → makedirs p fs = inr fs.
Proof. unfold isdir, makedirs. intros ->%bool_decide_eq_true. done. Qed.








Lemma makedirs_inr p fs fs' : makedirs p fs = inr fs' → isdir p fs' = true.
Proof.
  unfold makedirs, isdir. destruct (fs !! p) as [[]|] eqn:Hp; try done.
  - intros [= <-]. by apply bool_decide_eq_true.
  - destruct (enter_all _ _) as [e|fs1]; [done |]. intros [= <-].
    apply bool_decide_eq_true. by rewrite lookup_insert_eq.
Qed.



Lemma load_unfold d fs :
  load d fs =
  if isdir d fs then
    match _get_ckpt_file_paths d fs with
    | inl e => (inl e, fs)
    | inr l =>
        match last l with
        | None => (inl NotFound, fs)
        | Some p =>
            match _get_steps_and_count p with
            | inl e => (inl e, fs)
            | inr sc =>
                match check_positive [sc.1; 1] with
                | inl e => (inl e, fs)
                | inr _ =>
                    (inr (with_count sc.2
                            (with_file_paths l (new_checkpoint d sc.1 1))), fs)
                end
            end
        end
    end
  else (inl NotFound, fs).
Proof.
  unfold load. destruct (isdir d fs) eqn:Hd; [| done]. simpl.
  eff_unfold.
  destruct (_get_ckpt_file_paths d fs) as [e|l]; [done |].
  destruct (last l) as [p|]; [| done].
  destruct (_get_steps_and_count p) as [e|sc]; [done |].
  rewrite init_unfold. destruct (check_positive _); [done |].
  by rewrite makedirs_isdir.
Qed.

Lemma restore_unfold w :
  restore w =
  if isdir (_dir_path (self w)) (disk w) then
    match _get_ckpt_file_paths (_dir_path (self w)) (disk w) with
    | inl e => (inl e, w)
    | inr l =>
        match last l with
        | None => (inl NotFound, w)
        | Some p =>
            match _get_steps_and_count p with
            | inl e => (inl e, w)
            | inr sc =>
                (inr (), {| self := with_count sc.2 (with_file_paths l (self w));
                            disk := disk w |})
            end
        end
    end
  else (inl NotFound, w).
Proof.
  unfold restore. destruct (isdir _ _); [| done]. simpl.
  eff_unfold.
  destruct (_get_ckpt_file_paths _ _) as [e|l]; [done |].
  destruct (last l) as [p|]; [| done].
  by destruct (_get_steps_and_count p) as [e|sc].
Qed.

Lemma purge_unfold w :
  purge w =
  match _get_ckpt_file_paths (_dir_path (self w)) (disk w) with
  | inl e => (inl e, w)
  | inr l =>
      match purge_loop l [] (disk w) with
      | (inl e, fs') => (inl e, {| self := self w; disk := fs' |})
      | (inr removed, fs') =>
          (inr removed,
           {| self := with_count 0 (with_file_paths [] (self w)); disk := fs' |})
      end
  end.
Proof.
  unfold purge. eff_unfold.
  destruct (_get_ckpt_file_paths _ _) as [e|l]; [done |]. simpl.
  by destruct (purge_loop l [] (disk w)) as [[e|removed] fs'].
Qed.

Lemma save_unfold cdb n w :
  save cdb n w =
  let path := join (abspath (_dir_path (self w))) (ckpt_name (steps (self w)) n) in
  match evict (_file_paths (self w)) w with
  | (inl e, w1) => (inl e, w1)
  | (inr _, w1) =>
      match cdb_save cdb path (disk w1) with
      | (inl msg, fs2) =>
          (inl (PersistenceFailure msg), {| self := self w1; disk := fs2 |})
      | (inr _, fs2) =>
          (inr (),
           {| self := with_count n
                        (with_file_paths (_file_paths (self w1) ++ [path]) (self w1));
              disk := fs2 |})
      end
  end.
Proof.
  unfold save. eff_unfold.
  simpl. destruct (evict _ w) as [[e|[]] w1]; [done |].
  by destruct (cdb_save cdb _ (disk w1)) as [[msg|[]] fs2].
Qed.

Lemma populate_unfold cdb w :
  populate cdb w =
  match last (_file_paths (self w)) with
  | None => (inl NotRestored, w)
  | Some p =>
      (match cdb_load cdb p (disk w) with
       | inl msg => inl (PersistenceFailure msg)
       | inr _ => inr ()
       end, w)
  end.
Proof.
  unfold populate. eff_unfold.
  destruct (last _) as [p|]; [| done]. destruct w as [m fs]. simpl.
  by destruct (cdb_load cdb p fs).
Qed.

Lemma setter_unfold v w :
  steps_setter v w =
    (if bool_decide (0 < v) then (inr (), {| self := with_steps v (self w); disk := disk w |})
     else (inl InvalidArgument, w)) ∧
  max_to_keep_setter v w =
    (if bool_decide (0 < v) then (inr (), {| self := with_max_to_keep v (self w); disk := disk w |})
     else (inl InvalidArgument, w)).
Proof.
  unfold steps_setter, max_to_keep_setter, check_positive. eff_unfold.
  simpl. by case_bool_decide.
Qed.

(** ** The eviction loop *)
Lemma with_file_paths_id m : with_file_paths (_file_paths m) m = m.
Proof. by destruct m. Qed.

Lemma with_file_paths_twice l1 l2 m :
  with_file_paths l1 (with_file_paths l2 m) = with_file_paths l1 m.
Proof. done. Qed.

Lemma lookup_delete_all ps fs p :
  delete_all ps fs !! p = if bool_decide (p ∈ ps) then None else fs !! p.
Proof.
  revert fs. induction ps as [|q ps IH]; intros fs; simpl; [done |].
  rewrite IH. destruct (decide (p = q)) as [->|Hne].
  - rewrite lookup_delete_eq. rewrite (bool_decide_eq_true_2 (q ∈ q :: ps)) by left.
    by destruct (bool_decide _).
  - rewrite lookup_delete_ne by done.
    rewrite (bool_decide_ext (p ∈ q :: ps) (p ∈ ps)); [done |].
    rewrite elem_of_cons. split; [by intros [?|?] | by right].
Qed.

Lemma evict_none paths m :
  _file_paths m = paths → m = with_file_paths (drop 0 paths) m.
Proof. intros <-. by rewrite drop_0, with_file_paths_id. Qed.

Lemma evict_spec paths w r w' :
  evict paths w = (r, w') → _file_paths (self w) = paths →
  ∃ k, (k ≤ length paths)%nat ∧
       self w' = with_file_paths (drop k paths) (self w) ∧
       (∀ i, (i < k)%nat →
             _max_to_keep (self w) ≤ Z.of_nat (length (drop i paths))) ∧
       match r with
       | inr _ =>
           Z.of_nat (length (drop k paths)) < _max_to_keep (self w) ∧
           disk w' = delete_all (take k paths) (disk w)
       | inl e =>
           e = IndexError ∨ e = FileNotFoundError ∨ e = IsADirectoryError
       end.
Proof.
  revert w. induction paths as [|p rest IH]; intros w.
  - simpl. case_bool_decide as Hmax; intros [= <- <-] Hw; exists 0%nat;
      (split; [lia |]); (split; [by apply evict_none |]);
      (split; [lia |]); [auto | simpl in *; split; [lia | done]].
  - cbn [evict]. case_bool_decide as Hmax.
    + unfold mbind, eff_bind, update_self, on_disk, os_call, os_remove.
      cbn [self disk].
      destruct (disk w !! p) as [[]|] eqn:Hp.
      2,4: intros [= <- <-] Hw; exists 1%nat; cbn [self disk length];
        (split; [lia |]); (split; [done |]);
        (split; [intros i Hi; assert (i = 0)%nat as -> by lia;
                 by rewrite drop_0 | auto]).
      all: intros Hev Hw; apply IH in Hev as (k & Hk & Hself & Hguard & Hr);
        [| done]; cbn [self disk] in *; exists (S k); cbn [length drop take];
        (split; [lia |]); (split; [done |]); (split;
          [intros [|i] Hi; [by rewrite drop_0 | apply Hguard; lia] | done]).
    + intros [= <- <-] Hw. exists 0%nat.
      (split; [lia |]); (split; [by apply evict_none |]); (split; [lia |]).
      rewrite drop_0. split; [lia | done].
Qed.

(** ** Matching on the name against matching on the path *)

Lemma filter_ext_in {A} (P Q : A → Prop)
    `{!∀ x, Decision (P x), !∀ x, Decision (Q x)} (l : list A) :
  (∀ x, x ∈ l → P x ↔ Q x) → filter P l = filter Q l.
Proof.
  induction l as [|x l IH]; intros Hext; [done |].
  rewrite !filter_cons. rewrite IH by (intros y Hy; apply Hext; by right).
  destruct (decide (P x)) as [HP|HP], (decide (Q x)) as [HQ|HQ]; try done.
  - apply Hext in HP; [done | left].
  - apply Hext in HQ; [done | left].
Qed.

(** When the directory path does not itself contain the tag, a path of the
    directory contains the tag exactly when its name does. *)
Lemma candidates_name_tagged d fs :
  contains "checkpoint-" d = false → candidates d fs = name_tagged d fs.
Proof.
  intros Hd. unfold candidates, name_tagged. apply filter_ext_in.
  intros p (n & -> & [_ [_ Hn]]%elem_of_entries)%list_elem_of_fmap.
  unfold is_ckpt_file, abspath. rewrite basename_join by done.
  rewrite contains_join, Hd by done. done.
Qed.

Lemma elem_of_name_tagged d fs p :
  p ∈ name_tagged d fs ↔
  ∃ n, p = join d n ∧ valid_name n ∧
       fs !! p = Some Regular ∧ contains "checkpoint-" n = true.
Proof.
  unfold name_tagged. rewrite list_elem_of_filter, list_elem_of_fmap.
  unfold isfile, abspath. split.
  - intros [Hf (n & -> & Hn)]. apply elem_of_entries in Hn as [_ Hn].
    apply Is_true_true, andb_true_iff in Hf as [Hf%bool_decide_eq_true Ht].
    rewrite basename_join in Ht by apply Hn. by exists n.
  - intros (n & -> & Hn & Hf & Ht). split.
    + apply Is_true_true, andb_true_iff. rewrite bool_decide_eq_true.
      by rewrite basename_join by apply Hn.
    + exists n. split; [done |]. apply elem_of_entries. by rewrite Hf.
Qed.

(** ** The latest checkpoint *)

Lemma strongly_sorted_last ks k :
  StronglySorted Z.le ks → last ks = Some k → Forall (λ x, x ≤ k) ks.
Proof.
  induction 1 as [|x ks Hs IH Hx]; [done |].
  destruct ks as [|y ks].
  - intros [= <-]. by repeat constructor.
  - rewrite last_cons_cons. intros Hlast. constructor; [| by apply IH].
    rewrite Forall_forall in Hx. apply Hx.
    by apply last_Some_elem_of.
Qed.

Lemma sorted_by_count_last l p :
  sorted_by_count l → last l = Some p →
  ∃ c, count_of p = inr c ∧
       Forall (λ q, ∃ k, count_of q = inr k ∧ k ≤ c) l.
Proof.
  unfold sorted_by_count.
  destruct (keyed count_of l) as [e|kl] eqn:Hk; [done |].
  intros Hs%is_sorted_strongly Hlast.
  apply keyed_inr in Hk as [<- HF]. rewrite fmap_last in Hlast.
  destruct (last kl) as [[c p']|] eqn:Hkl; [| done]. injection Hlast as <-.
  exists c. split.
  - rewrite Forall_forall in HF. by apply (HF (c, p')), last_Some_elem_of.
  - assert (last kl.*1 = Some c) as Hc by by rewrite fmap_last, Hkl.
    pose proof (strongly_sorted_last _ _ Hs Hc) as Hle.
    apply Forall_fmap. rewrite Forall_forall in HF. rewrite Forall_forall in Hle.
    apply Forall_forall.
    intros [k q] Hq. exists k. split; [by apply (HF (k, q)) |].
    apply Hle, list_elem_of_fmap. by exists (k, q).
Qed.

Lemma sorted_by_count_parses l :
  sorted_by_count l → Forall (λ q, ∃ k, count_of q = inr k) l.
Proof.
  unfold sorted_by_count.
  destruct (keyed count_of l) as [e|kl] eqn:Hk; [done |]. intros _.
  apply keyed_inr in Hk as [<- HF]. apply Forall_fmap.
  eapply Forall_impl; [exact HF |]. intros [k q] Hq. by exists k.
Qed.

(** ** The loop of [purge] *)

Lemma delete_all_snoc ps p fs :
  delete_all (ps ++ [p]) fs = delete p (delete_all ps fs).
Proof. unfold delete_all. by rewrite foldl_app. Qed.

Lemma purge_loop_spec l acc fs :
  NoDup l → Forall (λ p, fs !! p = Some Regular) l →
  purge_loop l acc fs = (inr (acc ++ l), delete_all l fs).
Proof.
  revert acc fs. induction l as [|p l IH]; intros acc fs Hnd HF.
  - simpl. by rewrite app_nil_r.
  - apply NoDup_cons in Hnd as [Hp Hnd]. apply Forall_cons in HF as [Hfp HF].
    cbn [purge_loop]. unfold isfile. rewrite bool_decide_eq_true_2 by done.
    unfold mbind, eff_bind, os_call, os_remove. rewrite Hfp.
    rewrite IH; [by rewrite <- app_assoc | done |].
    rewrite Forall_forall in HF. apply Forall_forall. intros q Hq.
    rewrite lookup_delete_ne; [by apply HF |]. by intros ->.
Qed.

(** ** Checking a directory by computation *)

Lemma Forall_parses l :
  forallb parses l = true →
  Forall (λ p, ∃ sc, _get_steps_and_count p = inr sc) l.
Proof.
  intros Hall. apply Forall_forall. intros p Hp%list_elem_of_In.
  rewrite forallb_forall in Hall. apply Hall in Hp. unfold parses in Hp.
  destruct (_get_steps_and_count p) as [e|sc]; [done | by exists sc].
Qed.

(** ** Reachable worlds *)

Lemma fresh_is_init d s k :
  0 < s → 0 < k →
  __init__ d s k (disk (fresh d s k))
  = (inr (self (fresh d s k)), disk (fresh d s k)).
Proof.
  intros Hs Hk. rewrite init_unfold.
  rewrite check_positive_ok by (repeat constructor; done).
  rewrite makedirs_isdir; [done |].
  unfold isdir, fresh. cbn [disk]. apply bool_decide_eq_true.
  apply lookup_singleton_eq.
Qed.

Lemma reachable_by_run allowed cs w :
  reachable_by allowed w → allowed_run allowed cs w →
  reachable_by allowed (run cs w).
Proof.
  revert w. induction cs as [|c cs IH]; intros w Hw Hcs; [done |].
  destruct Hcs as [Hc Hcs]. apply (IH (exec c w).2); [| done].
  by apply reach_call.
Qed.

Lemma reachable_by_fresh allowed d s k :
  0 < s → 0 < k → reachable_by allowed (fresh d s k).
Proof.
  intros Hs Hk. apply (reach_init allowed d s k (disk (fresh d s k))).
  by apply fresh_is_init.
Qed.

Lemma init_inr d s k fs m fs' :
  __init__ d s k fs = (inr m, fs') → m = new_checkpoint d s k ∧ 0 < s ∧ 0 < k.
Proof.
  rewrite init_unfold. unfold check_positive. simpl.
  do 2 (case_bool_decide; [| done]). simpl.
  destruct (makedirs (abspath d) fs); [done |]. by intros [= <- <-].
Qed.

Lemma load_inr d fs m fs' :
  load d fs = (inr m, fs') →
  ∃ l p s c,
    _get_ckpt_file_paths d fs = inr l ∧ last l = Some p ∧
    _get_steps_and_count p = inr (s, c) ∧ 0 < s ∧
    m = with_count c (with_file_paths l (new_checkpoint d s 1)).
Proof.
  rewrite load_unfold. destruct (isdir d fs); [| done].
  destruct (_get_ckpt_file_paths d fs) as [e|l]; [done |].
  destruct (last l) as [p|] eqn:Hlast; [| done].
  destruct (_get_steps_and_count p) as [e|[s c]] eqn:Hp; [done |].
  unfold check_positive. simpl. case_bool_decide as Hs; [| done]. simpl.
  intros [= <- <-]. by exists l, p, s, c.
Qed.

(** What a call can do to the object. *)
Lemma save_self cdb n w :
  let old := _file_paths (self w) in
  let path :=
    join (abspath (_dir_path (self w))) (ckpt_name (steps (self w)) n) in
  ∃ k,
    ((save cdb n w).1 ≠ inr () ∧
     self (save cdb n w).2 = with_file_paths (drop k old) (self w)) ∨
    ((save cdb n w).1 = inr () ∧
     self (save cdb n w).2
     = with_count n (with_file_paths (drop k old ++ [path]) (self w))).
Proof.
  intros old path. rewrite save_unfold. cbv zeta. fold path.
  destruct (evict (_file_paths (self w)) w) as [r w1] eqn:Hev.
  apply evict_spec in Hev as (k & _ & Hself & _); [| done].
  exists k. destruct r as [e|[]]; [by left |].
  destruct (cdb_save cdb path (disk w1)) as [[msg|[]] fs2]; [by left |].
  right. cbn [fst snd self]. by rewrite Hself.
Qed.

Lemma restore_self w :
  self (restore w).2 = self w ∨
  ∃ l p s c,
    _get_ckpt_file_paths (_dir_path (self w)) (disk w) = inr l ∧
    last l = Some p ∧ _get_steps_and_count p = inr (s, c) ∧
    self (restore w).2 = with_count c (with_file_paths l (self w)).
Proof.
  rewrite restore_unfold. destruct (isdir _ _); [| by left].
  destruct (_get_ckpt_file_paths _ _) as [e|l]; [by left |].
  destruct (last l) as [p|] eqn:Hlast; [| by left].
  destruct (_get_steps_and_count p) as [e|[s c]] eqn:Hp; [by left |].
  right. by exists l, p, s, c.
Qed.

Lemma purge_self w :
  self (purge w).2 = self w ∨
  self (purge w).2 = with_count 0 (with_file_paths [] (self w)).
Proof.
  rewrite purge_unfold. destruct (_get_ckpt_file_paths _ _) as [e|l]; [by left |].
  destruct (purge_loop l [] (disk w)) as [[e|removed] fs']; [by left | by right].
Qed.

Lemma setter_self v w :
  (self (steps_setter v w).2 = self w ∨
   0 < v ∧ self (steps_setter v w).2 = with_steps v (self w)) ∧
  (self (max_to_keep_setter v w).2 = self w ∨
   0 < v ∧ self (max_to_keep_setter v w).2 = with_max_to_keep v (self w)).
Proof.
  destruct (setter_unfold v w) as [-> ->].
  case_bool_decide; [split; by right | split; by left].
Qed.

Lemma populate_self cdb w : (populate cdb w).2 = w.
Proof. rewrite populate_unfold. by destruct (last _). Qed.

(** ** Sorted paths under a bound *)

Lemma sorted_below_nil b : sorted_below b [].
Proof. exists []. by repeat split. Qed.

Lemma sorted_below_sorted b l : sorted_below b l → sorted_by_count l.
Proof. intros (kl & Hk & Hs & _). unfold sorted_by_count. by rewrite Hk. Qed.

Lemma keyed_drop {A} (key : A → result Z) l kl k :
  keyed key l = inr kl → keyed key (drop k l) = inr (drop k kl).
Proof.
  intros [<- HF]%keyed_inr. rewrite <- fmap_drop.
  apply keyed_of_keyed_by. by apply Forall_drop.
Qed.

Lemma keyed_snoc {A} (key : A → result Z) l kl x k :
  keyed key l = inr kl → key x = inr k →
  keyed key (l ++ [x]) = inr (kl ++ [(k, x)]).
Proof.
  intros [<- HF]%keyed_inr Hx.
  replace (kl.*2 ++ [x]) with ((kl ++ [(k, x)]).*2) by by rewrite fmap_app.
  apply keyed_of_keyed_by, Forall_app. split; [done |]. by repeat constructor.
Qed.

Lemma strongly_sorted_drop ks i :
  StronglySorted Z.le ks → StronglySorted Z.le (drop i ks).
Proof.
  intros Hs. revert i. induction Hs as [|x ks Hs IH Hx]; intros [|i]; simpl;
    [constructor | constructor | by constructor | apply IH].
Qed.

Lemma strongly_sorted_snoc ks n :
  StronglySorted Z.le ks → Forall (λ k, k ≤ n) ks →
  StronglySorted Z.le (ks ++ [n]).
Proof.
  induction 1 as [|x ks Hs IH Hx]; intros Hn; simpl.
  - repeat constructor.
  - apply Forall_cons in Hn as [Hxn Hn]. constructor; [by apply IH |].
    apply Forall_app. split; [done | by repeat constructor].
Qed.

Lemma sorted_below_drop b l k : sorted_below b l → sorted_below b (drop k l).
Proof.
  intros (kl & Hk & Hs & Hb). exists (drop k kl). split; [| split].
  - by apply keyed_drop.
  - rewrite fmap_drop. by apply is_sorted_strongly, strongly_sorted_drop,
      is_sorted_strongly.
  - rewrite fmap_drop. by apply Forall_drop.
Qed.

Lemma sorted_below_snoc b l p n :
  sorted_below b l → b ≤ n → count_of p = inr n → sorted_below n (l ++ [p]).
Proof.
  intros (kl & Hk & Hs & Hb) Hbn Hp.
  assert (Forall (λ k, k ≤ n) kl.*1) as Hn.
  { eapply Forall_impl; [exact Hb |]. simpl. intros; lia. }
  exists (kl ++ [(n, p)]). split; [| split].
  - by apply keyed_snoc.
  - rewrite fmap_app. apply is_sorted_strongly, strongly_sorted_snoc; [| done].
    by apply is_sorted_strongly.
  - rewrite fmap_app. apply Forall_app. split; [done |]. by repeat constructor.
Qed.

Lemma sorted_below_scan d fs l p s c :
  _get_ckpt_file_paths d fs = inr l → last l = Some p →
  _get_steps_and_count p = inr (s, c) → sorted_below c l.
Proof.
  intros (_ & _ & Hsorted)%get_ckpt_file_paths_inr Hlast Hp.
  unfold sorted_by_count in Hsorted.
  destruct (keyed count_of l) as [e|kl] eqn:Hk; [done |].
  exists kl. split; [done |]. split; [done |].
  apply strongly_sorted_last; [by apply is_sorted_strongly |].
  apply keyed_inr in Hk as [<- HF]. rewrite fmap_last. rewrite fmap_last in Hlast.
  destruct (last kl) as [[k q]|] eqn:Hkl; [| done].
  simpl in Hlast. assert (q = p) as -> by congruence.
  rewrite Forall_forall in HF.
  pose proof (HF (k, p) (last_Some_elem_of _ _ Hkl)) as Hkp.
  unfold keyed_by in Hkp. cbn [fst snd] in Hkp. unfold count_of in Hkp.
  rewrite Hp in Hkp. simpl in *. congruence.
Qed.

(** ** The two invariants, call by call *)

Lemma count_of_saved m n :
  0 ≤ _steps m → 0 ≤ n →
  count_of (join (abspath (_dir_path m)) (ckpt_name (steps m) n)) = inr n.
Proof.
  intros Hs Hn. unfold count_of, steps.
  by rewrite get_steps_and_count_name.
Qed.

Lemma parsed_count_nonneg p s c : _get_steps_and_count p = inr (s, c) → 0 ≤ c.
Proof.
  intros Hp. apply (count_of_nonneg p). unfold count_of. by rewrite Hp.
Qed.

Lemma paths_invariant_call c w :
  ascending_saves c w → paths_invariant (self w) →
  paths_invariant (self (exec c w).2).
Proof.
  intros Hc (Hsteps & Hcount & Hsorted).
  destruct c as [cdb n| | |v|v|cdb]; cbn [exec raised snd].
  - cbn [ascending_saves] in Hc.
    destruct (save_self cdb n w) as [k [[_ ->]|[_ ->]]].
    + repeat split; [done | done |]. by apply sorted_below_drop.
    + repeat split; [done | simpl; lia |].
      cbn [_count _file_paths with_count with_file_paths].
      eapply sorted_below_snoc; [by apply sorted_below_drop | done |].
      apply count_of_saved; [done | lia].
  - destruct (restore_self w) as [->|(l & p & s & c & Hl & Hlast & Hp & ->)];
      [done |].
    repeat split; [done | by eapply parsed_count_nonneg |].
    by eapply sorted_below_scan.
  - destruct (purge_self w) as [->| ->]; [done |].
    repeat split; [done | done | apply sorted_below_nil].
  - destruct (setter_self v w) as [[->|[Hv ->]] _]; [done |].
    repeat split; [simpl; lia | done | done].
  - destruct (setter_self v w) as [_ [->|[Hv ->]]]; done.
  - by rewrite populate_self.
Qed.

Lemma paths_invariant_reachable w :
  reachable_by ascending_saves w → paths_invariant (self w).
Proof.
  induction 1 as [d s k fs m fs' Hinit|d fs m fs' Hload|c w _ IH Hc|w fs' _ IH].
  - apply init_inr in Hinit as (-> & Hs & _).
    repeat split; [simpl; lia | done | apply sorted_below_nil].
  - apply load_inr in Hload as (l & p & s & c & Hl & Hlast & Hp & Hs & ->).
    repeat split; [simpl; lia | by eapply parsed_count_nonneg |].
    by eapply sorted_below_scan.
  - by apply paths_invariant_call.
  - done.
Qed.

Lemma count_is_latest_snoc m l p n :
  count_of p = inr n →
  count_is_latest (with_count n (with_file_paths (l ++ [p]) m)).
Proof. intros Hp. unfold count_is_latest. simpl. by rewrite last_snoc. Qed.

Lemma count_is_latest_scan (m : Checkpoint) l p s c :
  last l = Some p → _get_steps_and_count p = inr (s, c) →
  count_is_latest (with_count c (with_file_paths l m)).
Proof.
  intros Hlast Hp. unfold count_is_latest. simpl. rewrite Hlast.
  unfold count_of. by rewrite Hp.
Qed.

Lemma latest_invariant_call c w :
  completed_saves c w → latest_invariant (self w) →
  latest_invariant (self (exec c w).2).
Proof.
  intros Hc [Hsteps Hlatest]. destruct c as [cdb n| | |v|v|cdb]; cbn [exec raised snd].
  - destruct Hc as [Hn Hret].
    destruct (save_self cdb n w) as [k [[Hfail _]|[_ ->]]]; [done |].
    split; [done |]. apply count_is_latest_snoc. by apply count_of_saved.
  - destruct (restore_self w) as [->|(l & p & s & c & Hl & Hlast & Hp & ->)];
      [done |].
    split; [done |]. by eapply count_is_latest_scan.
  - destruct (purge_self w) as [->| ->]; done.
  - destruct (setter_self v w) as [[->|[Hv ->]] _]; [done |].
    split; [simpl; lia | done].
  - destruct (setter_self v w) as [_ [->|[Hv ->]]]; done.
  - by rewrite populate_self.
Qed.

Lemma latest_invariant_reachable w :
  reachable_by completed_saves w → latest_invariant (self w).
Proof.
  induction 1 as [d s k fs m fs' Hinit|d fs m fs' Hload|c w _ IH Hc|w fs' _ IH].
  - apply init_inr in Hinit as (-> & Hs & _). split; [simpl; lia | done].
  - apply load_inr in Hload as (l & p & s & c & Hl & Hlast & Hp & Hs & ->).
    split; [simpl; lia |]. by eapply count_is_latest_scan.
  - by apply latest_invariant_call.
  - done.
Qed.

(** * The claims *)

(** ** [save]: eviction comes first (C1) *)

(** C1.  Whenever [save] returns, its loop has popped the first [k] tracked
    paths, where the guard [len(file_paths) >= max_to_keep] held before each
    pop and fails after the last one; the popped files are deleted from the
    disk before the model writes the new file; the new path is appended to
    what is left, and the tracked list is no longer than [max_to_keep]. *)
Theorem save_evicts_before_writing cdb n w w' :
  save cdb n w = (inr (), w') →
  let old := _file_paths (self w) in
  let path :=
    join (abspath (_dir_path (self w))) (ckpt_name (steps (self w)) n) in
  ∃ k fs1,
    (∀ i, (i < k)%nat →
          _max_to_keep (self w) ≤ Z.of_nat (length (drop i old))) ∧
    Z.of_nat (length (drop k old)) < _max_to_keep (self w) ∧
    fs1 = delete_all (take k old) (disk w) ∧
    (∀ p, p ∈ take k old → fs1 !! p = None) ∧
    cdb_save cdb path fs1 = (inr (), disk w') ∧
    _file_paths (self w') = (drop k old ++ [path])%list ∧
    Z.of_nat (length (_file_paths (self w'))) ≤ _max_to_keep (self w').
Proof.
  intros Hsave old path. rewrite save_unfold in Hsave. cbv zeta in Hsave.
  fold path in Hsave.
  destruct (evict (_file_paths (self w)) w) as [[e|[]] w1] eqn:Hev; [done |].
  apply evict_spec in Hev as (k & Hk & Hself & Hguard & Hstop & Hdisk);
    [| done].
  destruct (cdb_save cdb path (disk w1)) as [[msg|[]] fs2] eqn:Hcdb; [done |].
  injection Hsave as <-. fold old in Hself, Hguard, Hstop, Hdisk.
  exists k, (disk w1). rewrite Hself. cbn [self disk _file_paths _max_to_keep
    with_count with_file_paths].
  repeat split; try done.
  - intros p Hp. rewrite Hdisk, lookup_delete_all.
    by rewrite bool_decide_eq_true_2.
  - rewrite length_app. cbn [length]. lia.
Qed.

Lemma save_evicts_before_writing_witness :
  let w := run [Save cdb_ok 10; Save cdb_ok 20] (fresh "/run" 1000 2) in
  ∃ k fs1,
    (∀ i, (i < k)%nat →
          2 ≤ Z.of_nat (length (drop i ["/run/checkpoint-1000-10";
                                        "/run/checkpoint-1000-20"]))) ∧
    Z.of_nat (length (drop k ["/run/checkpoint-1000-10";
                              "/run/checkpoint-1000-20"])) < 2 ∧
    fs1 = delete_all (take k (_file_paths (self w))) (disk w) ∧
    (∀ p, p ∈ take k (_file_paths (self w)) → fs1 !! p = None) ∧
    cdb_save cdb_ok "/run/checkpoint-1000-30" fs1
      = (inr (), disk (save cdb_ok 30 w).2) ∧
    _file_paths (self (save cdb_ok 30 w).2)
      = (drop k ["/run/checkpoint-1000-10"; "/run/checkpoint-1000-20"]
         ++ ["/run/checkpoint-1000-30"])%list ∧
    Z.of_nat (length (_file_paths (self (save cdb_ok 30 w).2))) ≤ 2.
Proof.
  intros w.
  apply (save_evicts_before_writing cdb_ok 30 w (save cdb_ok 30 w).2).
  vm_compute. reflexivity.
Defined.

(** ** [save] when the model raises (C4) *)

(** C4, as stated, fails: with [max_to_keep = 1] and one tracked checkpoint,
    a [save] whose model raises has already popped and deleted that
    checkpoint, so [file_paths] goes from one path to none. *)
Lemma save_failure_changes_file_paths :
  let w := run [Save cdb_ok 10] (fresh "/run" 1000 1) in
  _file_paths (self w) = ["/run/checkpoint-1000-10"] ∧
  save cdb_broken 20 w
  = (inl (PersistenceFailure "disk full"),
     {| self := {| _dir_path := "/run"; _steps := 1000; _max_to_keep := 1;
                   _file_paths := []; _count := 10 |};
        disk := {[ "/run" := Directory ]} |}).
Proof. split; vm_compute; reflexivity. Qed.

(** C4, amended.  When the model's [save] raises, the new path is not
    appended and [count] keeps its value.  The eviction loop has run before:
    it has popped the first [k] tracked paths, where the guard
    [len(file_paths) >= max_to_keep] held before each pop and fails after the
    last one, and [file_paths] is what is left.  The popped files are gone
    from the disk on which the model was asked to write, and the disk
    afterwards is the one the model's failed [save] left.  When the list was
    shorter than [max_to_keep] nothing is popped: the object is unchanged and
    the model was asked to write on the disk as it was. *)
Theorem save_failure_keeps_count cdb n w msg w' :
  save cdb n w = (inl (PersistenceFailure msg), w') →
  let old := _file_paths (self w) in
  let path :=
    join (abspath (_dir_path (self w))) (ckpt_name (steps (self w)) n) in
  ∃ k fs1,
    (∀ i, (i < k)%nat →
          _max_to_keep (self w) ≤ Z.of_nat (length (drop i old))) ∧
    Z.of_nat (length (drop k old)) < _max_to_keep (self w) ∧
    self w' = with_file_paths (drop k old) (self w) ∧
    _count (self w') = _count (self w) ∧
    fs1 = delete_all (take k old) (disk w) ∧
    (∀ p, p ∈ take k old → fs1 !! p = None) ∧
    (∀ p, p ∉ take k old → fs1 !! p = disk w !! p) ∧
    cdb_save cdb path fs1 = (inl msg, disk w') ∧
    (Z.of_nat (length old) < _max_to_keep (self w) →
     self w' = self w ∧ fs1 = disk w).
Proof.
  intros Hsave old path. rewrite save_unfold in Hsave. cbv zeta in Hsave.
  fold path in Hsave.
  destruct (evict (_file_paths (self w)) w) as [[e|[]] w1] eqn:Hev.
  - injection Hsave as -> <-.
    apply evict_spec in Hev as (_ & _ & _ & _ & [|[|]]); done.
  - apply evict_spec in Hev as (k & Hk & Hself & Hguard & Hstop & Hdisk);
      [| done].
    destruct (cdb_save cdb path (disk w1)) as [[msg'|[]] fs2] eqn:Hcdb;
      [| done].
    injection Hsave as -> <-. fold old in Hself, Hguard, Hstop, Hdisk.
    exists k, (disk w1). cbn [self disk]. rewrite Hself.
    split; [done |]. split; [done |]. split; [done |]. split; [done |].
    split; [done |]. split; [| split; [| split]].
    + intros p Hp. rewrite Hdisk, lookup_delete_all.
      by rewrite bool_decide_eq_true_2.
    + intros p Hp. rewrite Hdisk, lookup_delete_all.
      by rewrite bool_decide_eq_false_2.
    + done.
    + intros Hshort. destruct k as [|k].
      * subst old. by rewrite drop_0, with_file_paths_id.
      * specialize (Hguard 0%nat). rewrite drop_0 in Hguard. lia.
Qed.

Lemma save_failure_keeps_count_witness :
  let w := run [Save cdb_ok 10; Save cdb_ok 20] (fresh "/run" 1000 2) in
  let old := ["/run/checkpoint-1000-10"; "/run/checkpoint-1000-20"] in
  ∃ k fs1,
    (∀ i, (i < k)%nat → 2 ≤ Z.of_nat (length (drop i old))) ∧
    Z.of_nat (length (drop k old)) < 2 ∧
    self (save cdb_broken 30 w).2 = with_file_paths (drop k old) (self w) ∧
    _count (self (save cdb_broken 30 w).2) = 20 ∧
    fs1 = delete_all (take k old) (disk w) ∧
    (∀ p, p ∈ take k old → fs1 !! p = None) ∧
    (∀ p, p ∉ take k old → fs1 !! p = disk w !! p) ∧
    cdb_save cdb_broken "/run/checkpoint-1000-30" fs1
      = (inl "disk full", disk (save cdb_broken 30 w).2) ∧
    (Z.of_nat (length old) < 2 →
     self (save cdb_broken 30 w).2 = self w ∧ fs1 = disk w).
Proof.
  intros w old.
  apply (save_failure_keeps_count cdb_broken 30 w "disk full"
           (save cdb_broken 30 w).2).
  vm_compute. reflexivity.
Defined.

(** What that failing [save] leaves: of two tracked checkpoints the older
    one is gone, from the list and from the disk, and [count] is still 20. *)
Example failed_save_after_eviction :
  let w := run [Save cdb_ok 10; Save cdb_ok 20] (fresh "/run" 1000 2) in
  save cdb_broken 30 w
  = (inl (PersistenceFailure "disk full"),
     {| self := {| _dir_path := "/run"; _steps := 1000; _max_to_keep := 2;
                   _file_paths := ["/run/checkpoint-1000-20"];
                   _count := 20 |};
        disk := dir_with "/run" [("checkpoint-1000-20", Regular)] |}).
Proof. vm_compute. reflexivity. Qed.

(** ** [populate] (C8) *)

(** C8.  [populate] raises [NotRestored] exactly when no path is tracked;
    otherwise it calls the model's [load] on the last tracked path, and what
    that call returns or raises is the outcome.  In no case does it change
    the manager or the disk. *)
Theorem populate_uses_latest cdb w :
  ((populate cdb w).1 = inl NotRestored ↔ _file_paths (self w) = []) ∧
  (∀ p, last (_file_paths (self w)) = Some p →
        (populate cdb w).1
        = match cdb_load cdb p (disk w) with
          | inl msg => inl (PersistenceFailure msg)
          | inr _ => inr ()
          end) ∧
  (populate cdb w).2 = w.
Proof.
  rewrite populate_unfold.
  destruct (last (_file_paths (self w))) as [p|] eqn:Hlast.
  - split; [| split; [by intros ? [= <-] | done]]. cbn [fst]. split.
    + by destruct (cdb_load cdb p (disk w)).
    + intros Hnil. by rewrite Hnil in Hlast.
  - apply last_None in Hlast. by repeat split.
Qed.

(** ** Construction and the setters (C9) *)




(** Construction on a disk that holds [/srv] only: the missing directory
    above the target is created with it; a second construction finds the
    directory and changes nothing. *)
Example init_creates_directories :
  let fs : FS := {[ "/srv" := Directory; "/srv/notes" := Regular ]} in
  let fs' : FS := {[ "/srv" := Directory; "/srv/notes" := Regular;
                     "/srv/runs" := Directory; "/srv/runs/a" := Directory ]} in
  __init__ "/srv/runs/a" 1000 1 fs = (inr (new_checkpoint "/srv/runs/a" 1000 1), fs') ∧
  __init__ "/srv/runs/a" 1000 1 fs' = (inr (new_checkpoint "/srv/runs/a" 1000 1), fs').
Proof. split; vm_compute; reflexivity. Qed.

(** ** Checkpoint discovery (C2) *)

(** C2.  The filter of [_get_ckpt_file_paths] looks for the tag in the joined
    path, not in the file name.  In a directory whose own path contains the
    tag, a regular file [README] passes the filter although its name does not
    contain the tag, and the scan raises [IndexError] on it; the filter on
    names keeps the one checkpoint file. *)
Theorem discovery_filters_on_path :
  let d := "/runs/checkpoint-store" in
  let fs := dir_with d [("README", Regular); ("checkpoint-5-10", Regular)] in
  contains "checkpoint-" (basename (join d "README")) = false ∧
  is_ckpt_file fs (abspath (join d "README")) = true ∧
  name_tagged d fs = ["/runs/checkpoint-store/checkpoint-5-10"] ∧
  _get_steps_and_count (join d "README") = inl IndexError ∧
  _get_ckpt_file_paths d fs = inl IndexError.
Proof. repeat split; vm_compute; reflexivity. Qed.

(** ** [load] (C3) *)




(** The example of the specification: three checkpoints listed out of
    order. *)
Example load_three_checkpoints :
  let fs := dir_with "/run" [("checkpoint-5-10", Regular);
                             ("checkpoint-5-30", Regular);
                             ("checkpoint-5-20", Regular)] in
  load "/run" fs
  = (inr {| _dir_path := "/run"; _steps := 5; _max_to_keep := 1;
            _file_paths := ["/run/checkpoint-5-10"; "/run/checkpoint-5-20";
                            "/run/checkpoint-5-30"];
            _count := 30 |}, fs).
Proof. vm_compute. reflexivity. Qed.

(** ** [purge] (C7) *)

(** C7, as stated, fails: in a directory holding one regular file
    [checkpoint-abc-10], [purge] raises [ValueError]; it deletes nothing and
    leaves the object as it was. *)
Lemma purge_corrupt_name :
  let w := {| self := new_checkpoint "/run" 1000 1;
              disk := dir_with "/run" [("checkpoint-abc-10", Regular)] |} in
  name_tagged "/run" (disk w) = ["/run/checkpoint-abc-10"] ∧
  purge w = (inl ValueError, w).
Proof. split; vm_compute; reflexivity. Qed.

(** C7, amended.  For a manager whose directory exists, whose path does not
    itself contain the tag, and in which every regular file whose name
    contains the tag parses: [purge] returns; the paths it returns are exactly
    those regular files; it deletes them and nothing else, so that entries
    that are not regular files stay and no such file is left; it clears
    [file_paths] and resets [count] to 0.  When there is no such file it
    returns the empty list. *)
Theorem purge_outcome w :
  let d := _dir_path (self w) in
  contains "checkpoint-" d = false →
  isdir d (disk w) = true →
  Forall (λ p, ∃ sc, _get_steps_and_count p = inr sc) (name_tagged d (disk w)) →
  ∃ removed w',
    purge w = (inr removed, w') ∧
    removed ≡ₚ name_tagged d (disk w) ∧
    (∀ p, disk w' !! p
          = if bool_decide (p ∈ removed) then None else disk w !! p) ∧
    (∀ p, disk w !! p ≠ Some Regular → disk w' !! p = disk w !! p) ∧
    name_tagged d (disk w') = [] ∧
    self w' = with_count 0 (with_file_paths [] (self w)) ∧
    (name_tagged d (disk w) = [] → removed = []).
Proof.
  intros d Htag Hd Hparse. rewrite <- (candidates_name_tagged d _ Htag) in *.
  destruct (get_ckpt_file_paths_total d (disk w) Hd) as [l Hl].
  { eapply Forall_impl; [exact Hparse |]. intros p [[s c] Hp].
    exists c. unfold count_of. by rewrite Hp. }
  rewrite purge_unfold. fold d. rewrite Hl.
  apply get_ckpt_file_paths_inr in Hl as (_ & Hperm & _).
  assert (∀ p, p ∈ l → disk w !! p = Some Regular) as Hreg.
  { intros p Hp. rewrite Hperm in Hp.
    by apply candidates_isfile, bool_decide_eq_true in Hp. }
  rewrite purge_loop_spec.
  2: { rewrite Hperm. apply NoDup_candidates. }
  2: { by apply Forall_forall. }
  exists l, {| self := with_count 0 (with_file_paths [] (self w));
               disk := delete_all l (disk w) |}.
  cbn [self disk]. repeat split; try done.
  - intros p. apply lookup_delete_all.
  - intros p Hp. rewrite lookup_delete_all.
    case_bool_decide as Hin; [| done]. by apply Hreg in Hin.
  - rewrite <- (candidates_name_tagged d _ Htag).
    destruct (candidates d (delete_all l (disk w))) as [|p ps] eqn:E; [done |].
    assert (p ∈ candidates d (delete_all l (disk w))) as Hp
      by (rewrite E; left).
    apply elem_of_candidates in Hp as (n & -> & Hn & Hf & Ht).
    rewrite lookup_delete_all in Hf. case_bool_decide as Hin; [done |].
    destruct Hin. rewrite Hperm. apply elem_of_candidates. by exists n.
  - intros Hnone. rewrite Hnone in Hperm. by apply Permutation_nil_r in Hperm.
Qed.

Lemma purge_outcome_witness :
  let w := run [Save cdb_ok 10; Save cdb_ok 20]
               {| self := new_checkpoint "/run" 1000 2;
                  disk := dir_with "/run" [("notes.txt", Regular);
                                           ("checkpoint-old", Directory)] |} in
  ∃ removed w',
    purge w = (inr removed, w') ∧
    removed ≡ₚ name_tagged "/run" (disk w) ∧
    (∀ p, disk w' !! p
          = if bool_decide (p ∈ removed) then None else disk w !! p) ∧
    (∀ p, disk w !! p ≠ Some Regular → disk w' !! p = disk w !! p) ∧
    name_tagged "/run" (disk w') = [] ∧
    self w' = with_count 0 (with_file_paths [] (self w)) ∧
    (name_tagged "/run" (disk w) = [] → removed = []).
Proof.
  intros w. apply (purge_outcome w); [reflexivity | vm_compute; reflexivity |].
  apply Forall_parses. vm_compute. reflexivity.
Defined.

(** What [purge] does in that world: the two checkpoints go, the notes and
    the directory with a checkpoint-like name stay. *)
Example purge_two_checkpoints :
  let w := run [Save cdb_ok 10; Save cdb_ok 20]
               {| self := new_checkpoint "/run" 1000 2;
                  disk := dir_with "/run" [("notes.txt", Regular);
                                           ("checkpoint-old", Directory)] |} in
  purge w
  = (inr ["/run/checkpoint-1000-10"; "/run/checkpoint-1000-20"],
     {| self := new_checkpoint "/run" 1000 2;
        disk := dir_with "/run" [("notes.txt", Regular);
                                 ("checkpoint-old", Directory)] |}).
Proof. vm_compute. reflexivity. Qed.

(** ** [save] with a negative count (C10) *)

Lemma ckpt_name_negative s n :
  n < 0 → ckpt_name s n = "checkpoint-" +:+ str s +:+ "--" +:+ str (- n).
Proof.
  intros Hn. unfold ckpt_name. destruct n as [|q|q]; [lia | lia |].
  by rewrite str_neg.
Qed.

Lemma negative_count_field s n :
  0 ≤ s → n < 0 → split "-" (ckpt_name s n) !! 2%nat = Some "".
Proof.
  intros Hs Hn. rewrite split_ckpt_name.
  destruct n as [|q|q]; [lia | lia |]. rewrite str_neg.
  destruct (str_nonneg_digits s Hs) as [Hds _].
  rewrite split_app by (by apply all_digits_has_char).
  by rewrite split_head.
Qed.

Lemma saved_path_is_candidate m n fs :
  fs !! join (abspath (_dir_path m)) (ckpt_name (steps m) n) = Some Regular →
  join (abspath (_dir_path m)) (ckpt_name (steps m) n)
    ∈ candidates (_dir_path m) fs.
Proof.
  intros Hf. apply elem_of_candidates. exists (ckpt_name (steps m) n).
  split; [done |]. split; [split; [done | apply ckpt_name_no_slash] |].
  split; [done |]. unfold abspath. rewrite join_dir_prefix by apply ckpt_name_no_slash.
  unfold ckpt_name. apply (contains_intro "checkpoint-" (dir_prefix _)).
Qed.

(** C10, as stated, fails on both counts.  A [save] with a negative count
    does not always succeed: when the model's [save] raises, so does it.  And
    discovery does not fail ever after: with [max_to_keep = 1], the next
    [save] evicts the file with the negative count, and [restore], [load] and
    [purge] go through again. *)
Lemma negative_count_not_final :
  let w0 := fresh "/run" 1000 1 in
  let w1 := (save cdb_ok (-5) w0).2 in
  let w2 := (save cdb_ok 7 w1).2 in
  save cdb_broken (-5) w0 = (inl (PersistenceFailure "disk full"), w0) ∧
  (save cdb_ok (-5) w0).1 = inr () ∧
  disk w1 = dir_with "/run" [("checkpoint-1000--5", Regular)] ∧
  (save cdb_ok 7 w1).1 = inr () ∧
  disk w2 = dir_with "/run" [("checkpoint-1000-7", Regular)] ∧
  restore w2 = (inr (), w2) ∧
  load "/run" (disk w2)
  = (inr {| _dir_path := "/run"; _steps := 1000; _max_to_keep := 1;
            _file_paths := ["/run/checkpoint-1000-7"]; _count := 7 |},
     disk w2) ∧
  (purge w2).1 = inr ["/run/checkpoint-1000-7"].
Proof. repeat split; vm_compute; reflexivity. Qed.

(** C10, amended.  [save] does not look at the sign of [count].  With a
    negative count, whenever the eviction loop and the model's [save] go
    through, [save] returns, having had the model write a file whose name
    renders the negative number: [checkpoint-<steps>--<digits>].  In that
    name the field at index 2 is the empty string (for the non-negative
    [steps] a manager has), so parsing it raises [ValueError]; and on every
    disk on which that file is still in the directory, the scan, and with it
    [load], and [restore] and [purge] of every manager of that directory,
    raises [CorruptCheckpointName] and changes nothing. *)
Theorem negative_count_corrupts_directory cdb n w w1 fs2 :
  let d := _dir_path (self w) in
  let path := join (abspath d) (ckpt_name (steps (self w)) n) in
  n < 0 →
  evict (_file_paths (self w)) w = (inr (), w1) →
  cdb_save cdb path (disk w1) = (inr (), fs2) →
  ∃ w',
    save cdb n w = (inr (), w') ∧
    disk w' = fs2 ∧ _dir_path (self w') = d ∧
    last (_file_paths (self w')) = Some path ∧ _count (self w') = n ∧
    basename path
      = "checkpoint-" +:+ str (steps (self w)) +:+ "--" +:+ str (- n) ∧
    (0 ≤ steps (self w) → split "-" (basename path) !! 2%nat = Some "") ∧
    _get_steps_and_count path = inl ValueError ∧
    ∀ fs, fs !! path = Some Regular → isdir d fs = true →
      (∃ e, _get_ckpt_file_paths d fs = inl e ∧ CorruptCheckpointName e) ∧
      (∃ e, load d fs = (inl e, fs) ∧ CorruptCheckpointName e) ∧
      ∀ m, _dir_path m = d →
        (∃ e, restore {| self := m; disk := fs |}
              = (inl e, {| self := m; disk := fs |}) ∧
              CorruptCheckpointName e) ∧
        (∃ e, purge {| self := m; disk := fs |}
              = (inl e, {| self := m; disk := fs |}) ∧
              CorruptCheckpointName e).
Proof.
  intros d path Hn Hev Hcdb.
  pose proof (evict_spec _ _ _ _ Hev eq_refl) as (k & _ & Hself & _).
  eexists. rewrite save_unfold. cbv zeta. fold d path. rewrite Hev, Hcdb.
  split; [reflexivity |]. cbn [self disk]. rewrite Hself.
  cbn [_dir_path _file_paths _count with_count with_file_paths].
  split; [done |]. split; [done |]. split; [apply last_snoc |].
  split; [done |]. split; [| split; [| split]].
  - unfold path, abspath. rewrite basename_join by apply ckpt_name_no_slash.
    by apply ckpt_name_negative.
  - intros Hs. unfold path, abspath.
    rewrite basename_join by apply ckpt_name_no_slash.
    by apply negative_count_field.
  - unfold path, abspath. by apply get_steps_and_count_negative.
  - intros fs Hfile Hdir.
    assert (∃ e, _get_ckpt_file_paths d fs = inl e ∧ CorruptCheckpointName e)
      as (e & Hscan & He).
    { apply (get_ckpt_file_paths_corrupt _ _ path ValueError Hdir).
      - by apply saved_path_is_candidate.
      - unfold count_of, path, abspath.
        by rewrite get_steps_and_count_negative. }
    split; [by exists e |]. split.
    { exists e. by rewrite load_unfold, Hdir, Hscan. }
    intros m Hm. split; exists e.
    + rewrite restore_unfold. cbn [self disk]. by rewrite Hm, Hdir, Hscan.
    + rewrite purge_unfold. cbn [self disk]. by rewrite Hm, Hscan.
Qed.

Lemma negative_count_corrupts_directory_witness :
  let w := run [Save cdb_ok 10] (fresh "/run" 1000 1) in
  ∃ w',
    save cdb_ok (-5) w = (inr (), w') ∧
    disk w' = dir_with "/run" [("checkpoint-1000--5", Regular)] ∧
    _dir_path (self w') = "/run" ∧
    last (_file_paths (self w')) = Some "/run/checkpoint-1000--5" ∧
    _count (self w') = -5 ∧
    basename "/run/checkpoint-1000--5"
      = "checkpoint-" +:+ str 1000 +:+ "--" +:+ str (- -5) ∧
    (0 ≤ 1000 →
     split "-" (basename "/run/checkpoint-1000--5") !! 2%nat = Some "") ∧
    _get_steps_and_count "/run/checkpoint-1000--5" = inl ValueError ∧
    ∀ fs, fs !! "/run/checkpoint-1000--5" = Some Regular →
          isdir "/run" fs = true →
      (∃ e, _get_ckpt_file_paths "/run" fs = inl e ∧ CorruptCheckpointName e) ∧
      (∃ e, load "/run" fs = (inl e, fs) ∧ CorruptCheckpointName e) ∧
      ∀ m, _dir_path m = "/run" →
        (∃ e, restore {| self := m; disk := fs |}
              = (inl e, {| self := m; disk := fs |}) ∧
              CorruptCheckpointName e) ∧
        (∃ e, purge {| self := m; disk := fs |}
              = (inl e, {| self := m; disk := fs |}) ∧
              CorruptCheckpointName e).
Proof.
  intros w.
  apply (negative_count_corrupts_directory cdb_ok (-5) w
           (evict (_file_paths (self w)) w).2
           (dir_with "/run" [("checkpoint-1000--5", Regular)]));
    [lia | vm_compute; reflexivity..].
Defined.

(** The disk that [save] leaves in that world, and [load] on it. *)
Example load_after_negative_count :
  let w := (save cdb_ok (-5) (run [Save cdb_ok 10] (fresh "/run" 1000 1))).2 in
  disk w = dir_with "/run" [("checkpoint-1000--5", Regular)] ∧
  load "/run" (disk w) = (inl ValueError, disk w).
Proof. split; vm_compute; reflexivity. Qed.

(** ** The order of [file_paths] (C5) *)

(** C5, as stated, fails: [save] takes any count.  With room for two
    checkpoints, saving at count 10 and then at count 5 leaves the path of
    count 10 in front of the path of count 5. *)
Lemma saves_out_of_order :
  let w := run [Save cdb_ok 10; Save cdb_ok 5] (fresh "/run" 1000 2) in
  reachable w ∧
  _file_paths (self w) = ["/run/checkpoint-1000-10"; "/run/checkpoint-1000-5"] ∧
  count_of "/run/checkpoint-1000-10" = inr 10 ∧
  count_of "/run/checkpoint-1000-5" = inr 5 ∧
  ¬ sorted_by_count (_file_paths (self w)).
Proof.
  intros w. split; [| by vm_compute].
  apply reachable_by_run; [by apply reachable_by_fresh | done].
Qed.

(** C5, amended.  In every world reached from [__init__] or [load] by calls
    of [save], [restore], [purge], [populate] and the setters, whether they
    return or raise, in which every [save] is given a count that is not below
    the count the manager holds at that moment, [file_paths] is sorted
    ascending by embedded count. *)
Theorem file_paths_sorted w :
  reachable_by ascending_saves w → sorted_by_count (_file_paths (self w)).
Proof.
  intros (_ & _ & Hsorted)%paths_invariant_reachable.
  by eapply sorted_below_sorted.
Qed.

Lemma file_paths_sorted_witness :
  let w := run [Save cdb_ok 10; Save cdb_broken 15; Save cdb_ok 20; Restore;
                Save cdb_ok 20; SetMaxToKeep 4; Save cdb_ok 30]
               (fresh "/run" 1000 3) in
  sorted_by_count (_file_paths (self w)).
Proof.
  intros w. apply file_paths_sorted.
  apply reachable_by_run; [by apply reachable_by_fresh |].
  vm_compute. repeat split; discriminate.
Defined.

(** The paths that run ends with: three counts, one of them twice. *)
Example ascending_run_paths :
  let w := run [Save cdb_ok 10; Save cdb_broken 15; Save cdb_ok 20; Restore;
                Save cdb_ok 20; SetMaxToKeep 4; Save cdb_ok 30]
               (fresh "/run" 1000 3) in
  _file_paths (self w)
  = ["/run/checkpoint-1000-10"; "/run/checkpoint-1000-20";
     "/run/checkpoint-1000-20"; "/run/checkpoint-1000-30"] ∧
  keyed count_of (_file_paths (self w))
  = inr [(10, "/run/checkpoint-1000-10"); (20, "/run/checkpoint-1000-20");
         (20, "/run/checkpoint-1000-20"); (30, "/run/checkpoint-1000-30")].
Proof. split; vm_compute; reflexivity. Qed.

(** ** [count] and the last path (C6) *)

(** C6, as stated, fails: with [max_to_keep = 1], a [save] whose model raises
    has already evicted the only tracked checkpoint, and leaves no path while
    [count] is still 10. *)
Lemma failed_save_leaves_stale_count :
  let w := run [Save cdb_ok 10; Save cdb_broken 20] (fresh "/run" 1000 1) in
  reachable w ∧
  _file_paths (self w) = [] ∧ _count (self w) = 10 ∧
  ¬ count_is_latest (self w).
Proof.
  intros w. split; [| by vm_compute].
  apply reachable_by_run; [by apply reachable_by_fresh | done].
Qed.

(** C6, amended.  In every world reached from [__init__] or [load] by calls
    of [save], [restore], [purge], [populate] and the setters in which every
    [save] is given a count that is not negative and returns, [count] is the
    count embedded in the last path of [file_paths], and 0 when there is no
    path. *)
Theorem count_matches_last_path w :
  reachable_by completed_saves w → count_is_latest (self w).
Proof. by intros [_ Hlatest]%latest_invariant_reachable. Qed.

Lemma count_matches_last_path_witness :
  count_is_latest
    (self (run [Save cdb_ok 10; Save cdb_ok 20; SetMaxToKeep 2; Save cdb_ok 5;
                Restore; Purge; Save cdb_ok 7]
               (fresh "/run" 1000 1))).
Proof.
  apply count_matches_last_path.
  apply reachable_by_run; [by apply reachable_by_fresh |].
  vm_compute. repeat split; discriminate.
Defined.

(** * Further lemmas *)

Lemma get_steps_and_count_error p e :
  _get_steps_and_count p = inl e → CorruptCheckpointName e.
Proof.
  intros Hp. apply (count_of_error p). unfold count_of. by rewrite Hp.
Qed.

Lemma scan_regular d fs l :
  _get_ckpt_file_paths d fs = inr l →
  NoDup l ∧ Forall (λ p, fs !! p = Some Regular) l.
Proof.
  intros (_ & Hperm & _)%get_ckpt_file_paths_inr. split.
  - rewrite Hperm. apply NoDup_candidates.
  - apply Forall_forall. intros p Hp. rewrite Hperm in Hp.
    by apply candidates_isfile, bool_decide_eq_true in Hp.
Qed.

Lemma candidates_delete_all d fs l :
  l ≡ₚ candidates d fs → candidates d (delete_all l fs) = [].
Proof.
  intros Hperm.
  destruct (candidates d (delete_all l fs)) as [|p ps] eqn:E; [done |].
  assert (p ∈ candidates d (delete_all l fs)) as Hp by (rewrite E; left).
  apply elem_of_candidates in Hp as (n & -> & Hn & Hf & Ht).
  rewrite lookup_delete_all in Hf. case_bool_decide as Hin; [done |].
  destruct Hin. rewrite Hperm. apply elem_of_candidates. by exists n.
Qed.

Lemma isdir_delete_all d fs l :
  Forall (λ p, fs !! p = Some Regular) l → isdir d fs = true →
  isdir d (delete_all l fs) = true.
Proof.
  intros Hreg Hd. unfold isdir in *. apply bool_decide_eq_true in Hd.
  apply bool_decide_eq_true. rewrite lookup_delete_all.
  case_bool_decide as Hin; [| done].
  rewrite Forall_forall in Hreg. apply Hreg in Hin. congruence.
Qed.

(** [purge], once the scan has returned. *)
Lemma purge_of_scan w l :
  _get_ckpt_file_paths (_dir_path (self w)) (disk w) = inr l →
  purge w = (inr l, {| self := with_count 0 (with_file_paths [] (self w));
                       disk := delete_all l (disk w) |}).
Proof.
  intros Hl. rewrite purge_unfold, Hl.
  destruct (scan_regular _ _ _ Hl) as [Hnd Hreg].
  by rewrite purge_loop_spec.
Qed.

Lemma scan_isdir d fs l : _get_ckpt_file_paths d fs = inr l → isdir d fs = true.
Proof. by intros (Hd & _)%get_ckpt_file_paths_inr. Qed.

Lemma scan_empty d fs :
  isdir d fs = true → candidates d fs = [] → _get_ckpt_file_paths d fs = inr [].
Proof.
  intros Hd%bool_decide_eq_true Hnone.
  by rewrite get_ckpt_file_paths_unfold, Hd, Hnone.
Qed.

(** [load] never changes the disk. *)
Lemma load_disk d fs r fs' : load d fs = (r, fs') → fs' = fs.
Proof.
  rewrite load_unfold. destruct (isdir d fs); [| by intros [= _ <-]].
  destruct (_get_ckpt_file_paths d fs) as [e|l]; [by intros [= _ <-] |].
  destruct (last l) as [p|]; [| by intros [= _ <-]].
  destruct (_get_steps_and_count p) as [e|sc]; [by intros [= _ <-] |].
  destruct (check_positive _); by intros [= _ <-].
Qed.

(** ** Sorting names *)

Lemma insert_string_perm x l : insert_string x l ≡ₚ x :: l.
Proof.
  induction l as [|y l IH]; simpl; [done |].
  destruct (String.leb x y); [done |]. rewrite IH. apply Permutation_swap.
Qed.

Lemma sort_strings_perm l : sort_strings l ≡ₚ l.
Proof.
  induction l as [|x l IH]; simpl; [done |].
  by rewrite insert_string_perm, IH.
Qed.

Lemma insert_string_sorted x l :
  StronglySorted String.le l → StronglySorted String.le (insert_string x l).
Proof.
  induction 1 as [|y l Hl IH Hy]; simpl.
  - repeat constructor.
  - destruct (String.leb x y) eqn:Hxy.
    + assert (String.le x y) as Hle by (unfold String.le; by rewrite Hxy).
      constructor; [by constructor |]. constructor; [done |].
      eapply Forall_impl; [exact Hy |]. intros z Hz. by etrans.
    + assert (String.le y x) as Hle.
      { destruct (total String.le x y) as [Hle|Hle]; [| done].
        unfold String.le in Hle. by rewrite Hxy in Hle. }
      constructor; [done |]. rewrite insert_string_perm. by constructor.
Qed.

Lemma sort_strings_sorted l : StronglySorted String.le (sort_strings l).
Proof.
  induction l as [|x l IH]; simpl; [constructor | by apply insert_string_sorted].
Qed.

Lemma sorted_strings_last l m :
  StronglySorted String.le l → last l = Some m → Forall (λ n, String.le n m) l.
Proof.
  induction 1 as [|x l Hs IH Hx]; [done |].
  destruct l as [|y l].
  - intros [= <-]. by repeat constructor.
  - rewrite last_cons_cons. intros Hlast. constructor; [| by apply IH].
    rewrite Forall_forall in Hx. by apply Hx, last_Some_elem_of.
Qed.

Lemma listdir_entries d fs : isdir d fs = true → listdir d fs = inr (entries d fs).
Proof. unfold isdir, listdir. by intros ->%bool_decide_eq_true. Qed.

(** ** The eviction loop: when it raises, when it cannot *)

Lemma with_file_paths_nil m : _file_paths m = [] → with_file_paths [] m = m.
Proof. intros <-. apply with_file_paths_id. Qed.

Lemma evict_raises paths w e w' :
  evict paths w = (inl e, w') → _file_paths (self w) = paths →
  (e = IndexError ∧ _max_to_keep (self w) ≤ 0 ∧
   self w' = with_file_paths [] (self w) ∧
   disk w' = delete_all paths (disk w)) ∨
  (∃ j p,
     paths !! j = Some p ∧
     self w' = with_file_paths (drop (S j) paths) (self w) ∧
     disk w' = delete_all (take j paths) (disk w) ∧
     (e = FileNotFoundError ∧ disk w' !! p = None ∨
      e = IsADirectoryError ∧ disk w' !! p = Some Directory)).
Proof.
  revert w. induction paths as [|p rest IH]; intros w.
  - simpl. case_bool_decide as Hmax; [| done]. intros [= <- <-] Hw. left.
    split; [done |]. split; [simpl in Hmax; lia |].
    split; [by rewrite with_file_paths_nil | done].
  - cbn [evict]. case_bool_decide as Hmax; [| done].
    unfold mbind, eff_bind, update_self, on_disk, os_call, os_remove.
    cbn [self disk].
    destruct (disk w !! p) as [[]|] eqn:Hp.
    2: { intros [= <- <-] Hw. right. exists 0%nat, p. cbn [self disk].
         split; [done |]. split; [done |]. split; [done |]. by right. }
    3: { intros [= <- <-] Hw. right. exists 0%nat, p. cbn [self disk].
         split; [done |]. split; [done |]. split; [done |]. by left. }
    all: intros Hev Hw; apply IH in Hev; [| done]; cbn [self disk] in Hev;
      destruct Hev as [(-> & Hle & Hself & Hdisk)|(j & q & Hq & Hself & Hdisk & He)];
      [left; (split; [done |]); (split; [done |]); by split
      | right; exists (S j), q; (split; [done |]); (split; [done |]);
        by split].
Qed.

Lemma evict_all_regular paths w :
  _file_paths (self w) = paths → NoDup paths →
  Forall (λ p, disk w !! p = Some Regular) paths →
  0 < _max_to_keep (self w) →
  let k := Z.to_nat (Z.of_nat (length paths) - _max_to_keep (self w) + 1) in
  evict paths w
  = (inr (), {| self := with_file_paths (drop k paths) (self w);
                disk := delete_all (take k paths) (disk w) |}).
Proof.
  revert w. induction paths as [|p rest IH]; intros w Hw Hnd Hreg Hmax k.
  - simpl. rewrite bool_decide_eq_false_2 by (simpl; lia).
    subst k. simpl. replace (Z.to_nat (0 - _ + 1)) with 0%nat by lia.
    destruct w as [m fs]. simpl in *. by rewrite with_file_paths_nil.
  - apply NoDup_cons in Hnd as [Hp Hnd]. apply Forall_cons in Hreg as [Hfp Hreg].
    cbn [evict]. case_bool_decide as Hguard.
    + unfold mbind, eff_bind, update_self, on_disk, os_call, os_remove.
      cbn [self disk]. rewrite Hfp. rewrite IH; cbn [self disk]; try done.
      * assert (k = S (Z.to_nat (Z.of_nat (length rest)
                                 - _max_to_keep (self w) + 1))) as ->.
        { subst k. cbn [length] in *. simpl. lia. }
        done.
      * apply Forall_forall. intros q Hq. rewrite Forall_forall in Hreg.
        rewrite lookup_delete_ne; [by apply Hreg |]. by intros ->.
    + assert (k = 0%nat) as -> by (subst k; cbn [length] in *; lia).
      rewrite drop_0. destruct w as [m fs]. simpl in *.
      by rewrite <- Hw, with_file_paths_id.
Qed.

(** ** A directory that holds what the manager tracks *)

Lemma well_named_count p : well_named p → count_of p = inr (count_key p).
Proof.
  intros (s & c & Hp & _). unfold count_key, count_of. by rewrite Hp.
Qed.

Lemma well_named_parses p : well_named p → parses p = true.
Proof. intros (s & c & Hp & _). unfold parses. by rewrite Hp. Qed.

Lemma count_of_key p k : count_of p = inr k → count_key p = k.
Proof. unfold count_key. by intros ->. Qed.

Lemma keyed_count_key l kl :
  keyed count_of l = inr kl → kl.*1 = count_key <$> l.
Proof.
  intros [<- HF]%keyed_inr. induction HF as [|[k p] kl Hp _ IH]; [done |].
  rewrite !fmap_cons. cbn [fst snd]. rewrite IH. f_equal.
  symmetry. by apply count_of_key.
Qed.

Lemma sorted_by_count_key l :
  sorted_by_count l →
  StronglySorted (λ p q, count_key p ≤ count_key q) l.
Proof.
  unfold sorted_by_count.
  destruct (keyed count_of l) as [e|kl] eqn:Hk; [done |].
  intros Hs%is_sorted_strongly. rewrite (keyed_count_key _ _ Hk) in Hs.
  clear Hk. induction l as [|p l IH]; [constructor |].
  rewrite fmap_cons in Hs. apply StronglySorted_inv in Hs as [Hs Hp].
  constructor; [by apply IH |]. rewrite Forall_fmap in Hp.
  eapply Forall_impl; [exact Hp |]. by intros.
Qed.

Lemma strictly_sorted_NoDup l :
  StronglySorted (λ p q, count_key p < count_key q) l → NoDup l.
Proof.
  induction 1 as [|p l Hs IH Hp]; constructor; [| done].
  intros Hin. rewrite Forall_forall in Hp. apply Hp in Hin. lia.
Qed.

(** Two orderings of the same paths, one ascending and one strictly
    ascending, are the same list. *)
Lemma sorted_perm_unique l l' :
  l ≡ₚ l' →
  StronglySorted (λ p q, count_key p < count_key q) l' →
  StronglySorted (λ p q, count_key p ≤ count_key q) l →
  l = l'.
Proof.
  intros Hperm Hstrict. revert l Hperm.
  induction Hstrict as [|x xs Hxs IH Hx]; intros l Hperm Hsorted.
  { by apply Permutation_nil_r in Hperm. }
  destruct l as [|y ys].
  { symmetry in Hperm. by apply Permutation_nil_r in Hperm. }
  apply StronglySorted_inv in Hsorted as [Hys Hy].
  assert (y = x) as ->.
  { destruct (decide (y = x)) as [|Hne]; [done |]. exfalso.
    assert (y ∈ xs) as Hyin.
    { assert (y ∈ x :: xs) as Hin by (rewrite <- Hperm; left).
      apply elem_of_cons in Hin as [|]; done. }
    assert (x ∈ ys) as Hxin.
    { assert (x ∈ y :: ys) as Hin by (rewrite Hperm; left).
      apply elem_of_cons in Hin as [|]; [congruence | done]. }
    rewrite Forall_forall in Hx, Hy.
    apply Hx in Hyin. apply Hy in Hxin. lia. }
  f_equal. apply IH; [| done]. by apply Permutation_cons_inv in Hperm.
Qed.

Lemma scan_of_consistent w :
  consistent w →
  _get_ckpt_file_paths (_dir_path (self w)) (disk w)
  = inr (_file_paths (self w)).
Proof.
  intros (Hd & _ & _ & _ & Hnamed & Hstrict & _ & _ & Hperm).
  destruct (get_ckpt_file_paths_total _ _ Hd) as [l Hl].
  { rewrite <- Hperm. eapply Forall_impl; [exact Hnamed |].
    intros p Hp. exists (count_key p). by apply well_named_count. }
  rewrite Hl. f_equal.
  apply get_ckpt_file_paths_inr in Hl as (_ & Hl & Hsorted).
  apply sorted_perm_unique; [by rewrite Hl, Hperm | done |].
  by apply sorted_by_count_key.
Qed.

Lemma join_ne d n : n ≠ "" → has_char "/" n = false → join d n ≠ d.
Proof.
  intros Hn Hs Heq. rewrite join_dir_prefix in Heq by done.
  assert (String.length (dir_prefix d +:+ n) = String.length d) as Hlen
    by by rewrite Heq.
  assert (∀ a b, String.length (a +:+ b)
                 = (String.length a + String.length b)%nat) as Happ.
  { intros a b. induction a as [|c a IH]; [done |].
    rewrite app_cons_s. simpl. by rewrite IH. }
  assert (String.length d ≤ String.length (dir_prefix d))%nat as Hpre.
  { unfold dir_prefix, join. change (starts_with "/" "") with false.
    cbv iota. destruct (_ || _); rewrite !Happ; simpl; lia. }
  rewrite Happ in Hlen. destruct n; [done |]. simpl in Hlen. lia.
Qed.

Lemma consistent_regular w p :
  consistent w → p ∈ _file_paths (self w) → disk w !! p = Some Regular.
Proof.
  intros (_ & _ & _ & _ & _ & _ & _ & _ & Hperm) Hp. rewrite Hperm in Hp.
  by apply candidates_isfile, bool_decide_eq_true in Hp.
Qed.

Lemma in_drop {A} (x : A) k l : x ∈ drop k l → x ∈ l.
Proof.
  intros Hx. rewrite <- (take_drop k l). apply elem_of_app. by right.
Qed.

Lemma saved_well_named m n :
  0 < _steps m → 0 ≤ n →
  well_named (join (abspath (_dir_path m)) (ckpt_name (steps m) n)).
Proof.
  intros Hs Hn. exists (_steps m), n. split; [| done].
  unfold steps. apply get_steps_and_count_name; lia.
Qed.

(** [save] in a consistent world, with a count above the current one and a
    model that writes its file: it returns, and the world stays consistent. *)
Lemma save_consistent cdb n w :
  consistent w → _count (self w) < n → writes_file cdb →
  let old := _file_paths (self w) in
  let path :=
    join (abspath (_dir_path (self w))) (ckpt_name (steps (self w)) n) in
  let k := Z.to_nat (Z.of_nat (length old) - _max_to_keep (self w) + 1) in
  let w' := {| self := with_count n
                         (with_file_paths (drop k old ++ [path]) (self w));
               disk := <[path := Regular]>
                         (delete_all (take k old) (disk w)) |} in
  save cdb n w = (inr (), w') ∧ consistent w'.
Proof.
  intros Hcons Hn Hcdb old path k w'.
  pose proof Hcons as (Hd & Hsteps & Hmax & Hcount & Hnamed & Hstrict & Hbound
                       & Hlatest & Hperm).
  fold old in Hnamed, Hstrict, Hbound, Hperm.
  pose proof (strictly_sorted_NoDup _ Hstrict) as Hnd.
  assert (Forall (λ p, disk w !! p = Some Regular) old) as Hreg.
  { apply Forall_forall. intros p Hp. by apply consistent_regular. }
  assert (count_of path = inr n) as Hpath.
  { apply count_of_saved; lia. }
  assert (path ∉ old) as Hfresh.
  { intros Hin. rewrite Forall_forall in Hbound. apply Hbound in Hin.
    rewrite (count_of_key _ _ Hpath) in Hin. lia. }
  split.
  - rewrite save_unfold. cbv zeta. fold old path.
    rewrite (evict_all_regular old) by done. fold k. cbn [self disk].
    by rewrite Hcdb.
  - unfold consistent, w'. cbn [self disk _dir_path _steps _max_to_keep _count
      _file_paths with_count with_file_paths].
    split; [| split; [done | split; [done | split; [lia |]]]].
    { unfold isdir in *. apply bool_decide_eq_true in Hd.
      apply bool_decide_eq_true. rewrite lookup_insert_ne.
      - rewrite lookup_delete_all. case_bool_decide as Hin; [| done].
        apply elem_of_take in Hin as (i & Hi & _).
        apply list_elem_of_lookup_2 in Hi. rewrite Forall_forall in Hreg.
        apply Hreg in Hi. congruence.
      - unfold path, abspath. apply join_ne; [done | apply ckpt_name_no_slash]. }
    split; [| split; [| split; [| split]]].
    + apply Forall_app. split; [by apply Forall_drop |].
      constructor; [| done]. apply saved_well_named; lia.
    + apply StronglySorted_app_2.
      * intros x1 x2 Hx1%in_drop Hx2%list_elem_of_singleton. subst x2.
        rewrite (count_of_key _ _ Hpath). rewrite Forall_forall in Hbound.
        apply Hbound in Hx1. lia.
      * rewrite <- (take_drop k old) in Hstrict.
        by apply StronglySorted_app_1_r in Hstrict.
      * repeat constructor.
    + apply Forall_app. split.
      * apply Forall_drop. eapply Forall_impl; [exact Hbound |].
        simpl. intros; lia.
      * constructor; [| done]. rewrite (count_of_key _ _ Hpath). lia.
    + by apply count_is_latest_snoc.
    + apply NoDup_Permutation.
      * apply NoDup_app. split; [| split].
        -- rewrite <- (take_drop k old) in Hnd.
           by apply NoDup_app in Hnd as (_ & _ & Hnd).
        -- intros x Hx%in_drop ->%list_elem_of_singleton. done.
        -- apply NoDup_singleton.
      * apply NoDup_candidates.
      * intros x. rewrite elem_of_app, list_elem_of_singleton.
        rewrite elem_of_candidates. split.
        -- intros [Hx| ->].
           ++ assert (x ∈ old) as Hxold by by apply in_drop in Hx.
              pose proof Hxold as Hxc. rewrite Hperm in Hxc.
              apply elem_of_candidates in Hxc as (nm & -> & Hnm & Hf & Ht).
              exists nm. repeat split; try done; try apply Hnm.
              rewrite lookup_insert_ne by (intros Heq; by rewrite Heq in Hfresh).
              rewrite lookup_delete_all. rewrite bool_decide_eq_false_2; [done |].
              intros Hin. rewrite <- (take_drop k old) in Hnd.
              apply NoDup_app in Hnd as (_ & Hdisj & _). by apply Hdisj in Hin.
           ++ pose proof (saved_path_is_candidate (self w) n
                            (<[path := Regular]> (disk w))) as Hc.
              fold path in Hc. rewrite lookup_insert_eq in Hc.
              apply elem_of_candidates in Hc as (nm & Hnm1 & Hnm & _ & Ht);
                [| done].
              exists nm. repeat split; try done; try apply Hnm.
              by rewrite lookup_insert_eq.
        -- intros (nm & -> & Hnm & Hf & Ht).
           destruct (decide (join (_dir_path (self w)) nm = path)) as [|Hne];
             [by right | left].
           rewrite lookup_insert_ne in Hf by done.
           rewrite lookup_delete_all in Hf. case_bool_decide as Hin; [done |].
           assert (join (_dir_path (self w)) nm ∈ old) as Hold.
           { rewrite Hperm. apply elem_of_candidates. by exists nm. }
           rewrite <- (take_drop k old) in Hold.
           apply elem_of_app in Hold as [|]; done.
Qed.

Lemma restore_consistent w : consistent w → (restore w).2 = w.
Proof.
  intros Hcons. pose proof (scan_of_consistent w Hcons) as Hscan.
  pose proof Hcons as (Hd & _ & _ & _ & Hnamed & _ & _ & Hlatest & _).
  rewrite restore_unfold, Hd, Hscan. unfold count_is_latest in Hlatest.
  destruct (last (_file_paths (self w))) as [p|] eqn:Hlast; [| done].
  apply count_of_inr in Hlatest as [s Hp]. rewrite Hp. cbn [snd].
  destruct w as [[]]. done.
Qed.

Lemma purge_consistent w : consistent w → consistent (purge w).2.
Proof.
  intros Hcons. pose proof (scan_of_consistent w Hcons) as Hscan.
  pose proof Hcons as (Hd & Hsteps & Hmax & _ & _ & _ & _ & _ & Hperm).
  rewrite (purge_of_scan w _ Hscan). cbn [snd].
  destruct (scan_regular _ _ _ Hscan) as [_ Hreg].
  unfold consistent. cbn [self disk _dir_path _steps _max_to_keep _count
    _file_paths with_count with_file_paths].
  split; [by apply isdir_delete_all |].
  split; [done |]. split; [done |]. split; [done |].
  split; [done |]. split; [constructor |]. split; [done |]. split; [done |].
  by rewrite candidates_delete_all.
Qed.

Lemma setter_consistent w v :
  consistent w →
  consistent (steps_setter v w).2 ∧ consistent (max_to_keep_setter v w).2.
Proof.
  intros Hcons. destruct (setter_unfold v w) as [-> ->].
  case_bool_decide as Hv; [| done]. cbn [snd].
  destruct Hcons as (Hd & Hsteps & Hmax & Hrest). by split.
Qed.

Lemma training_call_consistent c w :
  training_call c w → consistent w → consistent (exec c w).2.
Proof.
  intros Hc Hcons. destruct c as [cdb n| | |v|v|cdb]; cbn [exec raised snd].
  - destruct Hc as [Hn Hcdb].
    destruct (save_consistent cdb n w Hcons Hn Hcdb) as [-> Hw']. done.
  - by rewrite restore_consistent.
  - by apply purge_consistent.
  - by apply setter_consistent.
  - by apply setter_consistent.
  - by rewrite populate_self.
Qed.

Lemma training_run_consistent cs w :
  consistent w → allowed_run training_call cs w → consistent (run cs w).
Proof.
  revert w. induction cs as [|c cs IH]; intros w Hcons Hcs; [done |].
  destruct Hcs as [Hc Hcs]. apply (IH (exec c w).2); [| done].
  by apply training_call_consistent.
Qed.

(** A manager just built over a directory without checkpoint files. *)
Lemma init_consistent d s k fs m fs' :
  __init__ d s k fs = (inr m, fs') → candidates (abspath d) fs' = [] →
  consistent {| self := m; disk := fs' |}.
Proof.
  intros Hinit Hnone. pose proof Hinit as (-> & Hs & Hk)%init_inr.
  rewrite init_unfold, check_positive_ok in Hinit
    by (repeat constructor; done).
  unfold consistent. cbn [self disk new_checkpoint _dir_path _steps
    _max_to_keep _count _file_paths].
  split.
  { destruct (makedirs (abspath d) fs) as [e|fs1] eqn:Hmk; [done |].
    injection Hinit as <-. by apply makedirs_inr in Hmk. }
  split; [done |]. split; [done |]. split; [done |]. split; [done |].
  split; [constructor |]. split; [done |]. split; [done |].
  by rewrite Hnone.
Qed.

(** ** [restore], case by case *)

Lemma restore_raises w e w' :
  restore w = (inl e, w') → w' = w ∧ (e = NotFound ∨ CorruptCheckpointName e).
Proof.
  rewrite restore_unfold. destruct (isdir _ _) eqn:Hd.
  2: { intros [= <- <-]. auto. }
  destruct (_get_ckpt_file_paths _ _) as [e'|l] eqn:Hl.
  { intros [= <- <-]. split; [done |]. right.
    apply get_ckpt_file_paths_inl in Hl as [[Hd' _]|(_ & p & _ & Hp)];
      [congruence | by eapply count_of_error]. }
  destruct (last l) as [p|] eqn:Hlast.
  2: { intros [= <- <-]. auto. }
  destruct (_get_steps_and_count p) as [e'|[s c]] eqn:Hp; [| done].
  intros [= <- <-]. split; [done |]. right.
  by eapply get_steps_and_count_error.
Qed.

Lemma restore_returns w w' :
  restore w = (inr (), w') →
  disk w' = disk w ∧
  _dir_path (self w') = _dir_path (self w) ∧
  _steps (self w') = _steps (self w) ∧
  _max_to_keep (self w') = _max_to_keep (self w) ∧
  _get_ckpt_file_paths (_dir_path (self w)) (disk w)
    = inr (_file_paths (self w')) ∧
  _file_paths (self w') ≠ [] ∧
  sorted_by_count (_file_paths (self w')) ∧
  count_is_latest (self w').
Proof.
  rewrite restore_unfold. destruct (isdir _ _) eqn:Hd; [| done].
  destruct (_get_ckpt_file_paths _ _) as [e|l] eqn:Hl; [done |].
  destruct (last l) as [p|] eqn:Hlast; [| done].
  destruct (_get_steps_and_count p) as [e|[s c]] eqn:Hp; [done |].
  intros [= <-].
  cbn [self disk _file_paths _dir_path _steps _max_to_keep with_count
       with_file_paths].
  repeat split; try done.
  - intros ->. done.
  - by apply get_ckpt_file_paths_inr in Hl as (_ & _ & Hsorted).
  - by eapply count_is_latest_scan.
Qed.

(** * Further properties of the class *)

(** ** Parsing a checkpoint name *)

(** X1.  A name that parses yields two non-negative numbers: the fields are
    cut at every ['-'], so none can carry a minus sign. *)
Theorem parsed_fields_nonnegative p s c :
  _get_steps_and_count p = inr (s, c) → 0 ≤ s ∧ 0 ≤ c.
Proof.
  intros Hp. split; [| by eapply parsed_count_nonneg].
  unfold _get_steps_and_count, item, int in Hp.
  pose proof (split_no_sep_inside "-" (basename p)) as Hparts.
  destruct (split "-" (basename p) !! 1%nat) as [s1|] eqn:H1; simpl in Hp;
    [| done].
  destruct (py_int s1) as [s'|] eqn:Hs; simpl in Hp; [| done].
  destruct (split "-" (basename p) !! 2%nat) as [s2|]; simpl in Hp; [| done].
  destruct (py_int s2) as [c'|]; simpl in Hp; [| done].
  injection Hp as -> ->. apply (py_int_nonneg s1); [| done].
  rewrite Forall_forall in Hparts. apply Hparts.
  by eapply list_elem_of_lookup_2.
Qed.

Lemma parsed_fields_nonnegative_witness : 0 ≤ 5 ∧ 0 ≤ 10.
Proof.
  apply (parsed_fields_nonnegative "/run/checkpoint-5-10").
  vm_compute. reflexivity.
Defined.

(** X2.  What [save] names, [_get_steps_and_count] reads back: after a
    [save] that returns, called with a count that is not negative on a
    manager whose steps are not negative, the last tracked path is the
    directory joined with [checkpoint-<steps>-<count>], and it parses to
    exactly these steps and this count. *)
Theorem saved_path_parses_back cdb n w w' :
  save cdb n w = (inr (), w') → 0 ≤ steps (self w) → 0 ≤ n →
  ∃ p,
    last (_file_paths (self w')) = Some p ∧
    p = join (abspath (_dir_path (self w))) (ckpt_name (steps (self w)) n) ∧
    basename p = "checkpoint-" +:+ str (steps (self w)) +:+ "-" +:+ str n ∧
    _get_steps_and_count p = inr (steps (self w), n) ∧
    _count (self w') = n.
Proof.
  intros Hsave Hs Hn.
  destruct (save_self cdb n w) as [k [[Hfail _]|[_ Hself]]];
    [by rewrite Hsave in Hfail |].
  rewrite Hsave in Hself. cbn [snd] in Hself. rewrite Hself.
  eexists. split; [apply last_snoc |]. split; [done |].
  split; [| split; [| done]].
  - unfold abspath. by rewrite basename_join by apply ckpt_name_no_slash.
  - by apply get_steps_and_count_name.
Qed.

Lemma saved_path_parses_back_witness :
  let w := fresh "/run" 1000 1 in
  ∃ p,
    last (_file_paths (self (save cdb_ok 20 w).2)) = Some p ∧
    p = join (abspath "/run") (ckpt_name 1000 20) ∧
    basename p = "checkpoint-" +:+ str 1000 +:+ "-" +:+ str 20 ∧
    _get_steps_and_count p = inr (1000, 20) ∧
    _count (self (save cdb_ok 20 w).2) = 20.
Proof.
  intros w.
  apply (saved_path_parses_back cdb_ok 20 w (save cdb_ok 20 w).2);
    [vm_compute; reflexivity | done | done].
Defined.

(** ** The scan of a directory *)

(** X3.  In an existing directory, [_get_ckpt_file_paths]
    - returns exactly when the name of every regular file of the directory
      whose joined path contains the tag parses;
    - then returns these paths, each once, in ascending order of count;
    - otherwise raises the [ValueError] or [IndexError] that one of these
      names raises.
    On a path that is not a directory it raises the error of [os.listdir]. *)
Theorem scan_characterisation d fs :
  (isdir d fs = true →
   ((∃ l, _get_ckpt_file_paths d fs = inr l) ↔
    Forall (λ p, parses p = true) (candidates d fs)) ∧
   (∀ l, _get_ckpt_file_paths d fs = inr l →
         NoDup l ∧ l ≡ₚ candidates d fs ∧ sorted_by_count l ∧
         Forall (λ p, isfile p fs = true ∧
                      ∃ n, valid_name n ∧ p = join d n) l) ∧
   (∀ e, _get_ckpt_file_paths d fs = inl e →
         CorruptCheckpointName e ∧
         ∃ p, p ∈ candidates d fs ∧ count_of p = inl e)) ∧
  (isdir d fs = false →
   _get_ckpt_file_paths d fs = inl FileNotFoundError ∨
   _get_ckpt_file_paths d fs = inl NotADirectoryError).
Proof.
  split.
  - intros Hd. split; [split |].
    + intros [l Hl]. apply Forall_forall. intros p Hp. unfold parses.
      destruct (_get_steps_and_count p) as [e|sc] eqn:He; [| done].
      destruct (get_ckpt_file_paths_corrupt d fs p e Hd Hp) as (e' & He' & _).
      { unfold count_of. by rewrite He. }
      congruence.
    + intros Hall. apply get_ckpt_file_paths_total; [done |].
      eapply Forall_impl; [exact Hall |]. intros p Hp. unfold parses in Hp.
      unfold count_of. destruct (_get_steps_and_count p) as [e|[s c]];
        [done | by exists c].
    + split.
      * intros l (_ & Hperm & Hsorted)%get_ckpt_file_paths_inr.
        split; [rewrite Hperm; apply NoDup_candidates |].
        split; [done |]. split; [done |].
        apply Forall_forall. intros p Hp. rewrite Hperm in Hp.
        split; [by eapply candidates_isfile |].
        apply elem_of_candidates in Hp as (n & -> & Hn & _). by exists n.
      * intros e [[Hd' _]|(_ & p & Hp & He)]%get_ckpt_file_paths_inl;
          [congruence |].
        split; [by eapply count_of_error | by exists p].
  - intros Hd. rewrite get_ckpt_file_paths_unfold. unfold isdir in Hd.
    apply bool_decide_eq_false in Hd.
    destruct (fs !! d) as [[]|]; auto. done.
Qed.

Lemma scan_characterisation_witness :
  let fs := dir_with "/run" [("checkpoint-5-30", Regular);
                             ("checkpoint-7-10", Regular);
                             ("checkpoint-old", Directory);
                             ("notes.txt", Regular)] in
  ((∃ l, _get_ckpt_file_paths "/run" fs = inr l) ↔
   Forall (λ p, parses p = true) (candidates "/run" fs)) ∧
  (∀ l, _get_ckpt_file_paths "/run" fs = inr l →
        NoDup l ∧ l ≡ₚ candidates "/run" fs ∧ sorted_by_count l ∧
        Forall (λ p, isfile p fs = true ∧
                     ∃ n, valid_name n ∧ p = join "/run" n) l) ∧
  (∀ e, _get_ckpt_file_paths "/run" fs = inl e →
        CorruptCheckpointName e ∧
        ∃ p, p ∈ candidates "/run" fs ∧ count_of p = inl e).
Proof.
  intros fs. apply (scan_characterisation "/run" fs).
  vm_compute. reflexivity.
Defined.

(** ** [restore] *)

(** X4.  [restore] is all or nothing.  When it raises, the error is
    [NotFound] or a [CorruptCheckpointName] error and nothing has changed.
    When it returns, the disk, the directory, [steps] and [max_to_keep] are
    as before, [file_paths] is the non-empty result of the scan, sorted by
    count, and [count] is the count of its last path. *)
Theorem restore_all_or_nothing w :
  (∀ e w', restore w = (inl e, w') →
           w' = w ∧ (e = NotFound ∨ CorruptCheckpointName e)) ∧
  (∀ w', restore w = (inr (), w') →
         disk w' = disk w ∧
         _dir_path (self w') = _dir_path (self w) ∧
         _steps (self w') = _steps (self w) ∧
         _max_to_keep (self w') = _max_to_keep (self w) ∧
         _get_ckpt_file_paths (_dir_path (self w)) (disk w)
           = inr (_file_paths (self w')) ∧
         _file_paths (self w') ≠ [] ∧
         sorted_by_count (_file_paths (self w')) ∧
         count_is_latest (self w')).
Proof.
  split; [intros e w'; apply restore_raises | intros w'; apply restore_returns].
Qed.

Lemma restore_all_or_nothing_witness :
  let w := {| self := new_checkpoint "/run" 1000 3;
              disk := dir_with "/run" [("checkpoint-5-10", Regular);
                                   ("checkpoint-5-30", Regular);
                                   ("checkpoint-5-20", Regular)] |} in
  let w' := (restore w).2 in
  disk w' = disk w ∧
  _dir_path (self w') = _dir_path (self w) ∧
  _steps (self w') = _steps (self w) ∧
  _max_to_keep (self w') = _max_to_keep (self w) ∧
  _get_ckpt_file_paths (_dir_path (self w)) (disk w)
    = inr (_file_paths (self w')) ∧
  _file_paths (self w') ≠ [] ∧
  sorted_by_count (_file_paths (self w')) ∧
  count_is_latest (self w').
Proof.
  intros w w'. apply (restore_all_or_nothing w). vm_compute. reflexivity.
Defined.

(** X5.  [load] is construction followed by [restore]: the manager [load]
    returns is the one [restore] produces from a new manager with the
    default [max_to_keep = 1] and the steps of the latest checkpoint; and
    where [restore] returns, [load] on the same directory finds the same
    paths and count, unless the latest name embeds the steps 0, which the
    constructor rejects. *)
Theorem load_is_new_then_restore d fs :
  (∀ m fs', load d fs = (inr m, fs') →
     fs' = fs ∧ _max_to_keep m = 1 ∧ 0 < _steps m ∧
     restore {| self := new_checkpoint d (_steps m) 1; disk := fs |}
     = (inr (), {| self := m; disk := fs |})) ∧
  (∀ m0 w', _dir_path m0 = d →
     restore {| self := m0; disk := fs |} = (inr (), w') →
     ∃ p s c,
       last (_file_paths (self w')) = Some p ∧
       _get_steps_and_count p = inr (s, c) ∧
       (0 < s →
        load d fs
        = (inr {| _dir_path := abspath d; _steps := s; _max_to_keep := 1;
                  _file_paths := _file_paths (self w');
                  _count := _count (self w') |}, fs)) ∧
       (s ≤ 0 → load d fs = (inl InvalidArgument, fs))).
Proof.
  split.
  - intros m fs' Hload.
    assert (fs' = fs) as -> by by eapply load_disk.
    apply load_inr in Hload as (l & p & s & c & Hl & Hlast & Hp & Hs & ->).
    repeat split; [done |]. rewrite restore_unfold. cbn [self disk _dir_path
      new_checkpoint _steps with_count with_file_paths]. unfold abspath.
    by rewrite (scan_isdir _ _ _ Hl), Hl, Hlast, Hp.
  - intros m0 w' Hm0 Hres. rewrite restore_unfold in Hres.
    cbn [self disk] in Hres. rewrite Hm0 in Hres.
    destruct (isdir d fs) eqn:Hd; [| done].
    destruct (_get_ckpt_file_paths d fs) as [e|l] eqn:Hl; [done |].
    destruct (last l) as [p|] eqn:Hlast; [| done].
    destruct (_get_steps_and_count p) as [e|[s c]] eqn:Hp; [done |].
    injection Hres as <-. exists p, s, c. cbn [self _file_paths _count
      with_count with_file_paths fst snd].
    rewrite load_unfold, Hd, Hl, Hlast, Hp. cbn [fst snd].
    repeat split; try done.
    + intros Hs. by rewrite check_positive_ok by (repeat constructor; done).
    + intros Hs. by rewrite (check_positive_fail _ s) by (done || left).
Qed.

Lemma load_is_new_then_restore_witness :
  let fs := dir_with "/run" [("checkpoint-5-10", Regular);
                                   ("checkpoint-5-30", Regular);
                                   ("checkpoint-5-20", Regular)] in
  let m := {| _dir_path := "/run"; _steps := 5; _max_to_keep := 1;
              _file_paths := ["/run/checkpoint-5-10"; "/run/checkpoint-5-20";
                              "/run/checkpoint-5-30"];
              _count := 30 |} in
  fs = fs ∧ _max_to_keep m = 1 ∧ 0 < _steps m ∧
  restore {| self := new_checkpoint "/run" (_steps m) 1; disk := fs |}
  = (inr (), {| self := m; disk := fs |}).
Proof.
  intros fs m. apply (load_is_new_then_restore "/run" fs).
  vm_compute. reflexivity.
Defined.

(** ** [restore_and_populate] *)

(** X6.  [restore_and_populate] never raises [NotRestored].  When [restore]
    raises, that error is the outcome, nothing has changed and the model is
    not asked to load.  When [restore] returns, the outcome is that of the
    model's [load] on the last path of the scan, whose count is the greatest
    in the directory. *)
Theorem restore_and_populate_outcome cdb w :
  (restore_and_populate cdb w).1 ≠ inl NotRestored ∧
  (∀ e, (restore w).1 = inl e → restore_and_populate cdb w = (inl e, w)) ∧
  (∀ w', restore w = (inr (), w') →
     ∃ p c,
       last (_file_paths (self w')) = Some p ∧ count_of p = inr c ∧
       Forall (λ q, ∃ k, count_of q = inr k ∧ k ≤ c)
              (candidates (_dir_path (self w)) (disk w)) ∧
       restore_and_populate cdb w
       = (match cdb_load cdb p (disk w) with
          | inl msg => inl (PersistenceFailure msg)
          | inr _ => inr ()
          end, w')).
Proof.
  assert (restore_and_populate cdb w
          = match restore w with
            | (inl e, w') => (inl e, w')
            | (inr _, w') => populate cdb w'
            end) as Hunfold by done.
  destruct (restore w) as [[e|[]] w'] eqn:Hres.
  - destruct (restore_raises w e w' Hres) as [-> He]. rewrite Hunfold.
    split; [| split; [by intros ? [= <-] | done]].
    cbn [fst]. intros [= ->]. by destruct He as [|[|]].
  - destruct (restore_returns w w' Hres)
      as (Hdisk & Hdir & _ & _ & Hscan & Hne & Hsorted & _).
    destruct (last (_file_paths (self w'))) as [p|] eqn:Hlast.
    2: { by apply last_None in Hlast. }
    destruct (sorted_by_count_last _ p Hsorted Hlast) as (c & Hc & Hmax).
    assert (populate cdb w'
            = (match cdb_load cdb p (disk w) with
               | inl msg => inl (PersistenceFailure msg)
               | inr _ => inr ()
               end, w')) as Hpop.
    { by rewrite populate_unfold, Hlast, Hdisk. }
    rewrite Hunfold, Hpop. split; [| split; [done |]].
    + cbn [fst]. by destruct (cdb_load cdb p (disk w)).
    + intros ? [= <-]. exists p, c. rewrite Hlast. repeat split; try done.
      apply get_ckpt_file_paths_inr in Hscan as (_ & Hperm & _).
      by rewrite <- Hperm.
Qed.

Lemma restore_and_populate_outcome_witness :
  let w := {| self := new_checkpoint "/run" 1000 3;
              disk := dir_with "/run" [("checkpoint-5-10", Regular);
                                   ("checkpoint-5-30", Regular);
                                   ("checkpoint-5-20", Regular)] |} in
  ∃ p c,
    last (_file_paths (self (restore w).2)) = Some p ∧ count_of p = inr c ∧
    Forall (λ q, ∃ k, count_of q = inr k ∧ k ≤ c)
           (candidates (_dir_path (self w)) (disk w)) ∧
    restore_and_populate cdb_ok w
    = (match cdb_load cdb_ok p (disk w) with
       | inl msg => inl (PersistenceFailure msg)
       | inr _ => inr ()
       end, (restore w).2).
Proof.
  intros w. apply (restore_and_populate_outcome cdb_ok w).
  vm_compute. reflexivity.
Defined.

(** ** [purge] *)

(** X7.  [purge] is all or nothing.  It raises exactly when the scan of the
    directory raises, with that error, and then neither the disk nor the
    object has changed; in particular a missing directory gives the
    [FileNotFoundError] of [os.listdir], not [NotFound].  When it returns, it
    returns the scan result, has deleted exactly these files, and leaves the
    directory in place with no checkpoint file in it. *)
Theorem purge_all_or_nothing w :
  let d := _dir_path (self w) in
  (∀ e w', purge w = (inl e, w') →
           w' = w ∧ _get_ckpt_file_paths d (disk w) = inl e) ∧
  (∀ removed w', purge w = (inr removed, w') →
     _get_ckpt_file_paths d (disk w) = inr removed ∧
     disk w' = delete_all removed (disk w) ∧
     self w' = with_count 0 (with_file_paths [] (self w)) ∧
     candidates d (disk w') = [] ∧
     isdir d (disk w') = true) ∧
  (disk w !! d = None → purge w = (inl FileNotFoundError, w)).
Proof.
  intros d. destruct (_get_ckpt_file_paths d (disk w)) as [e|l] eqn:Hl.
  - assert (purge w = (inl e, w)) as Hpurge by by rewrite purge_unfold; fold d; rewrite Hl.
    rewrite Hpurge. split; [by intros ? ? [= <- <-] |]. split; [done |].
    intros Hnone. rewrite get_ckpt_file_paths_unfold, Hnone in Hl. congruence.
  - rewrite (purge_of_scan w l Hl). split; [done |]. split.
    + intros ? ? [= <- <-]. cbn [self disk].
      destruct (scan_regular _ _ _ Hl) as [_ Hreg].
      pose proof Hl as (Hd & Hperm & _)%get_ckpt_file_paths_inr.
      repeat split; try done.
      * by apply candidates_delete_all.
      * by apply isdir_delete_all.
    + intros Hnone. rewrite get_ckpt_file_paths_unfold, Hnone in Hl. congruence.
Qed.

Lemma purge_all_or_nothing_witness :
  let w := {| self := new_checkpoint "/run" 1000 3;
              disk := dir_with "/run" [("checkpoint-5-10", Regular);
                                   ("checkpoint-5-30", Regular);
                                   ("checkpoint-5-20", Regular)] |} in
  let removed := ["/run/checkpoint-5-10"; "/run/checkpoint-5-20";
                  "/run/checkpoint-5-30"] in
  _get_ckpt_file_paths "/run" (disk w) = inr removed ∧
  disk (purge w).2 = delete_all removed (disk w) ∧
  self (purge w).2 = with_count 0 (with_file_paths [] (self w)) ∧
  candidates "/run" (disk (purge w).2) = [] ∧
  isdir "/run" (disk (purge w).2) = true.
Proof.
  intros w removed. apply (purge_all_or_nothing w). vm_compute. reflexivity.
Defined.

(** X8.  After a [purge] that returned there is nothing to go back to:
    [populate] raises [NotRestored], and [restore] and [load] on the
    directory raise [NotFound]. *)
Theorem nothing_left_after_purge cdb w removed w' :
  purge w = (inr removed, w') →
  populate cdb w' = (inl NotRestored, w') ∧
  restore w' = (inl NotFound, w') ∧
  load (_dir_path (self w)) (disk w') = (inl NotFound, disk w').
Proof.
  intros Hpurge.
  destruct (_get_ckpt_file_paths (_dir_path (self w)) (disk w)) as [e|l] eqn:Hl.
  { by rewrite purge_unfold, Hl in Hpurge. }
  rewrite (purge_of_scan w l Hl) in Hpurge. injection Hpurge as <- <-.
  destruct (scan_regular _ _ _ Hl) as [_ Hreg].
  pose proof Hl as (Hd & Hperm & _)%get_ckpt_file_paths_inr.
  pose proof (isdir_delete_all _ _ _ Hreg Hd) as Hd'.
  pose proof (scan_empty _ _ Hd' (candidates_delete_all _ _ _ Hperm)) as Hscan.
  split; [by rewrite populate_unfold |]. split.
  - rewrite restore_unfold. cbn [self disk _dir_path with_count with_file_paths].
    by rewrite Hd', Hscan.
  - cbn [disk]. by rewrite load_unfold, Hd', Hscan.
Qed.

Lemma nothing_left_after_purge_witness :
  let w := run [Save cdb_ok 10; Save cdb_ok 20] (fresh "/run" 1000 2) in
  populate cdb_ok (purge w).2 = (inl NotRestored, (purge w).2) ∧
  restore (purge w).2 = (inl NotFound, (purge w).2) ∧
  load "/run" (disk (purge w).2) = (inl NotFound, disk (purge w).2).
Proof.
  intros w.
  apply (nothing_left_after_purge cdb_ok w
           ["/run/checkpoint-1000-10"; "/run/checkpoint-1000-20"] (purge w).2).
  vm_compute. reflexivity.
Defined.

(** ** [from_last_training] *)

(** X9.  [from_last_training] raises [ValueError] when the parent is not a
    directory or has no entry.  Otherwise it picks, among all entries of the
    parent, whatever their kind, the one whose name is the greatest in the
    order of strings, and is [load] on the parent joined with that name: so
    when that entry is not a directory the outcome is [NotFound], whatever
    the other entries hold. *)
Theorem from_last_training_outcome parent fs :
  (isdir parent fs = false →
   from_last_training parent fs = (inl ValueError, fs)) ∧
  (isdir parent fs = true → entries parent fs = [] →
   from_last_training parent fs = (inl ValueError, fs)) ∧
  (isdir parent fs = true → entries parent fs ≠ [] →
   ∃ folder,
     folder ∈ entries parent fs ∧
     (∀ n, n ∈ entries parent fs → String.le n folder) ∧
     from_last_training parent fs = load (abspath (join parent folder)) fs ∧
     (isdir (abspath (join parent folder)) fs = false →
      from_last_training parent fs = (inl NotFound, fs))).
Proof.
  unfold from_last_training. split; [by intros -> | split].
  - intros Hd Hnone. rewrite Hd. cbn [negb]. unfold mbind, eff_bind, lift.
    by rewrite listdir_entries, Hnone.
  - intros Hd Hsome. rewrite Hd. cbn [negb]. unfold mbind, eff_bind, lift.
    rewrite listdir_entries by done.
    destruct (entries parent fs) as [|n0 names] eqn:Hnames; [done |].
    rewrite <- Hnames.
    destruct (last (sort_strings (entries parent fs))) as [folder|] eqn:Hlast.
    2: { apply last_None in Hlast.
         pose proof (sort_strings_perm (entries parent fs)) as Hperm.
         rewrite Hlast, Hnames in Hperm. by apply Permutation_nil_l in Hperm. }
    exists folder. split; [| split; [| split; [done |]]].
    + rewrite <- (sort_strings_perm (entries parent fs)).
      by apply last_Some_elem_of.
    + intros n Hn. rewrite <- (sort_strings_perm (entries parent fs)) in Hn.
      pose proof (sorted_strings_last _ _ (sort_strings_sorted _) Hlast) as Hmax.
      rewrite Forall_forall in Hmax. by apply Hmax.
    + intros Hnd. by rewrite load_unfold, Hnd.
Qed.

Lemma from_last_training_outcome_witness :
  let fs := <["/runs/2021-05/checkpoint-5-10" := Regular]>
              (dir_with "/runs" [("2021-04", Directory);
                                 ("2021-05", Directory);
                                 ("2021-01", Directory)]) in
  ∃ folder,
    folder ∈ entries "/runs" fs ∧
    (∀ n, n ∈ entries "/runs" fs → String.le n folder) ∧
    from_last_training "/runs" fs = load (abspath (join "/runs" folder)) fs ∧
    (isdir (abspath (join "/runs" folder)) fs = false →
     from_last_training "/runs" fs = (inl NotFound, fs)).
Proof.
  intros fs.
  destruct (from_last_training_outcome "/runs" fs) as (_ & _ & Hpick).
  apply Hpick; [vm_compute; reflexivity | vm_compute; discriminate].
Defined.

(** The run directory with the greatest name is the one loaded. *)
Example from_last_training_latest_run :
  let fs := <["/runs/2021-05/checkpoint-5-10" := Regular]>
              (dir_with "/runs" [("2021-04", Directory);
                                 ("2021-05", Directory);
                                 ("2021-01", Directory)]) in
  from_last_training "/runs" fs
  = (inr {| _dir_path := "/runs/2021-05"; _steps := 5; _max_to_keep := 1;
            _file_paths := ["/runs/2021-05/checkpoint-5-10"];
            _count := 10 |}, fs).
Proof. vm_compute. reflexivity. Qed.

(** ** [save]: how it can fail *)

(** X10.  A [save] that raises never changes [count], and raises in one of
    three ways.  Either the model raised.  Or the eviction loop could not
    delete a tracked path [p], missing from the disk ([FileNotFoundError]) or
    a directory ([IsADirectoryError]): then the paths before [p] are deleted,
    [p] itself is dropped from [file_paths] although it was not removed, and
    the model was never asked to write.  Or [max_to_keep] is not positive:
    then every tracked path is deleted and the loop ends in [IndexError]. *)
Theorem save_failure_modes cdb n w e w' :
  save cdb n w = (inl e, w') →
  let old := _file_paths (self w) in
  _count (self w') = _count (self w) ∧
  ((∃ msg, e = PersistenceFailure msg) ∨
   (∃ j p,
      old !! j = Some p ∧
      _file_paths (self w') = drop (S j) old ∧
      disk w' = delete_all (take j old) (disk w) ∧
      (e = FileNotFoundError ∧ disk w' !! p = None ∨
       e = IsADirectoryError ∧ disk w' !! p = Some Directory)) ∨
   (e = IndexError ∧ _max_to_keep (self w) ≤ 0 ∧
    _file_paths (self w') = [] ∧ disk w' = delete_all old (disk w))).
Proof.
  intros Hsave old. rewrite save_unfold in Hsave. cbv zeta in Hsave.
  destruct (evict (_file_paths (self w)) w) as [[e'|[]] w1] eqn:Hev.
  - injection Hsave as -> ->.
    apply evict_raises in Hev; [| done].
    destruct Hev
      as [(-> & Hle & Hself & Hdisk)|(j & p & Hp & Hself & Hdisk & He)];
      rewrite Hself; (split; [done |]); right.
    + right. split; [done |]. split; [done |]. by split.
    + left. exists j, p. split; [done |]. split; [done |]. by split.
  - apply evict_spec in Hev as (k & _ & Hself & _); [| done].
    destruct (cdb_save cdb _ (disk w1)) as [[msg|[]] fs2]; [| done].
    injection Hsave as <- <-. cbn [self]. rewrite Hself.
    split; [done |]. left. by exists msg.
Qed.

Lemma save_failure_modes_witness :
  let w := run [Save cdb_ok 10; Save cdb_ok 10; Save cdb_ok 20]
               (fresh "/run" 1000 2) in
  let old := _file_paths (self w) in
  let w' := (save cdb_ok 30 w).2 in
  _count (self w') = _count (self w) ∧
  ((∃ msg, FileNotFoundError = PersistenceFailure msg) ∨
   (∃ j p,
      old !! j = Some p ∧
      _file_paths (self w') = drop (S j) old ∧
      disk w' = delete_all (take j old) (disk w) ∧
      (FileNotFoundError = FileNotFoundError ∧ disk w' !! p = None ∨
       FileNotFoundError = IsADirectoryError ∧
       disk w' !! p = Some Directory)) ∨
   (FileNotFoundError = IndexError ∧ _max_to_keep (self w) ≤ 0 ∧
    _file_paths (self w') = [] ∧ disk w' = delete_all old (disk w))).
Proof.
  intros w old w'.
  apply (save_failure_modes cdb_ok 30 w FileNotFoundError w').
  vm_compute. reflexivity.
Defined.

(** Saving twice at the same count tracks one path twice; its second
    eviction finds the file gone. *)
Example same_count_twice :
  let w := run [Save cdb_ok 10; Save cdb_ok 10; Save cdb_ok 20]
               (fresh "/run" 1000 2) in
  _file_paths (self w) = ["/run/checkpoint-1000-10"; "/run/checkpoint-1000-20"] ∧
  disk w !! "/run/checkpoint-1000-10" = None ∧
  (save cdb_ok 30 w).1 = inl FileNotFoundError ∧
  _file_paths (self (save cdb_ok 30 w).2) = ["/run/checkpoint-1000-20"].
Proof. repeat split; vm_compute; reflexivity. Qed.

(** ** [save] on a manager that was just loaded *)

(** X11.  [load] leaves [max_to_keep] at 1 whatever the directory holds.  So
    the first [save] on the manager [load] returns deletes every checkpoint
    the scan found before the model writes: eviction cannot fail there, the
    outcome is the model's, and afterwards only the new path is tracked, or
    none when the model raised. *)
Theorem save_after_load_evicts_all cdb n d fs m fs' :
  load d fs = (inr m, fs') →
  let path := join (abspath (_dir_path m)) (ckpt_name (steps m) n) in
  let emptied := delete_all (_file_paths m) fs' in
  (∀ p, p ∈ _file_paths m → emptied !! p = None) ∧
  save cdb n {| self := m; disk := fs' |}
  = match cdb_save cdb path emptied with
    | (inl msg, fs2) =>
        (inl (PersistenceFailure msg),
         {| self := with_file_paths [] m; disk := fs2 |})
    | (inr _, fs2) =>
        (inr (),
         {| self := with_count n (with_file_paths [path] m); disk := fs2 |})
    end.
Proof.
  intros Hload path emptied.
  pose proof (load_disk _ _ _ _ Hload) as ->.
  apply load_inr in Hload as (l & p & s & c & Hl & Hlast & Hp & Hs & ->).
  destruct (scan_regular _ _ _ Hl) as [Hnd Hreg].
  cbn [_file_paths with_count with_file_paths new_checkpoint] in emptied.
  split.
  - intros q Hq. subst emptied. rewrite lookup_delete_all.
    by rewrite bool_decide_eq_true_2.
  - rewrite save_unfold. cbv zeta. fold path.
    cbn [self disk _file_paths with_count with_file_paths new_checkpoint].
    rewrite (evict_all_regular l); cbn [self disk _max_to_keep _file_paths
      with_count with_file_paths new_checkpoint]; try done.
    replace (Z.to_nat (Z.of_nat (length l) - 1 + 1)) with (length l) by lia.
    rewrite drop_all, firstn_all. fold emptied. subst path.
    by destruct (cdb_save cdb _ emptied) as [[msg|[]] fs2].
Qed.

Lemma save_after_load_evicts_all_witness :
  let fs := dir_with "/run" [("checkpoint-5-10", Regular);
                             ("checkpoint-5-30", Regular);
                             ("checkpoint-5-20", Regular)] in
  let m := {| _dir_path := "/run"; _steps := 5; _max_to_keep := 1;
              _file_paths := ["/run/checkpoint-5-10"; "/run/checkpoint-5-20";
                              "/run/checkpoint-5-30"];
              _count := 30 |} in
  let path := join (abspath "/run") (ckpt_name 5 40) in
  let emptied := delete_all (_file_paths m) fs in
  (∀ p, p ∈ _file_paths m → emptied !! p = None) ∧
  save cdb_ok 40 {| self := m; disk := fs |}
  = match cdb_save cdb_ok path emptied with
    | (inl msg, fs2) =>
        (inl (PersistenceFailure msg),
         {| self := with_file_paths [] m; disk := fs2 |})
    | (inr _, fs2) =>
        (inr (),
         {| self := with_count 40 (with_file_paths [path] m); disk := fs2 |})
    end.
Proof.
  intros fs m path emptied.
  apply (save_after_load_evicts_all cdb_ok 40 "/run" fs m fs).
  vm_compute. reflexivity.
Defined.

(** ** What a restart finds *)

(** X12.  Build a manager over a directory that holds no checkpoint file,
    and call it any number of times, every [save] with a count above the
    current one and a model that writes its file.  Then at every point the
    scan of the directory returns exactly [file_paths]; [restore] changes
    nothing; and [load] on the directory, as after a restart, raises
    [NotFound] when nothing is tracked and otherwise returns a manager with
    the same [file_paths] and the same [count]. *)
Theorem restart_finds_what_was_saved d s k fs m fs' cs :
  __init__ d s k fs = (inr m, fs') → candidates (abspath d) fs' = [] →
  allowed_run training_call cs {| self := m; disk := fs' |} →
  let w := run cs {| self := m; disk := fs' |} in
  _get_ckpt_file_paths (_dir_path (self w)) (disk w)
    = inr (_file_paths (self w)) ∧
  (restore w).2 = w ∧
  (_file_paths (self w) = [] →
   load (_dir_path (self w)) (disk w) = (inl NotFound, disk w)) ∧
  (_file_paths (self w) ≠ [] →
   ∃ m',
     load (_dir_path (self w)) (disk w) = (inr m', disk w) ∧
     _file_paths m' = _file_paths (self w) ∧ _count m' = _count (self w) ∧
     _dir_path m' = _dir_path (self w)).
Proof.
  intros Hinit Hnone Hcs w.
  assert (consistent w) as Hcons.
  { apply training_run_consistent; [by eapply init_consistent | done]. }
  pose proof (scan_of_consistent w Hcons) as Hscan.
  pose proof Hcons as (Hd & _ & _ & _ & Hnamed & _ & _ & Hlatest & _).
  split; [done |]. split; [by apply restore_consistent |].
  rewrite load_unfold, Hd, Hscan. split.
  - by intros ->.
  - intros Hne. unfold count_is_latest in Hlatest.
    destruct (last (_file_paths (self w))) as [p|] eqn:Hlast.
    2: { by apply last_None in Hlast. }
    rewrite Forall_forall in Hnamed.
    destruct (Hnamed p (last_Some_elem_of _ _ Hlast)) as (s' & c' & Hp & Hs').
    rewrite Hp. cbn [fst snd].
    rewrite check_positive_ok by (repeat constructor; done).
    eexists. split; [done |].
    unfold count_of in Hlatest. rewrite Hp in Hlatest.
    injection Hlatest as <-. done.
Qed.

Lemma restart_finds_what_was_saved_witness :
  let w := run [Save cdb_ok 10; Save cdb_ok 20; SetSteps 500; Save cdb_ok 30;
                Restore; SetMaxToKeep 3; Save cdb_ok 40]
               (fresh "/run" 1000 2) in
  _get_ckpt_file_paths (_dir_path (self w)) (disk w)
    = inr (_file_paths (self w)) ∧
  (restore w).2 = w ∧
  (_file_paths (self w) = [] →
   load (_dir_path (self w)) (disk w) = (inl NotFound, disk w)) ∧
  (_file_paths (self w) ≠ [] →
   ∃ m',
     load (_dir_path (self w)) (disk w) = (inr m', disk w) ∧
     _file_paths m' = _file_paths (self w) ∧ _count m' = _count (self w) ∧
     _dir_path m' = _dir_path (self w)).
Proof.
  apply (restart_finds_what_was_saved "/run" 1000 2 ∅
           (new_checkpoint "/run" 1000 2) {[ "/run" := Directory ]}).
  - vm_compute. reflexivity.
  - vm_compute. reflexivity.
  - cbn [allowed_run training_call]. unfold writes_file.
    repeat split; try done; vm_compute; reflexivity.
Defined.

(** ** How many checkpoints the directory holds *)

(** X13.  In the same setting a [save] with a count above the current one
    and a model that writes its file cannot fail: it returns, keeps the
    newest [max_to_keep - 1] of the tracked paths and appends the new one;
    and afterwards the checkpoint files in the directory are exactly the
    tracked paths, at most [max_to_keep] of them. *)
Theorem directory_holds_at_most_max_to_keep d s k fs m fs' cs cdb n :
  __init__ d s k fs = (inr m, fs') → candidates (abspath d) fs' = [] →
  allowed_run training_call cs {| self := m; disk := fs' |} →
  let w := run cs {| self := m; disk := fs' |} in
  _count (self w) < n → writes_file cdb →
  let old := _file_paths (self w) in
  let kept := drop (Z.to_nat (Z.of_nat (length old)
                              - _max_to_keep (self w) + 1)) old in
  ∃ w',
    save cdb n w = (inr (), w') ∧
    _file_paths (self w')
    = kept ++ [join (abspath (_dir_path (self w)))
                    (ckpt_name (steps (self w)) n)] ∧
    candidates (_dir_path (self w)) (disk w') ≡ₚ _file_paths (self w') ∧
    Z.of_nat (length (candidates (_dir_path (self w)) (disk w')))
      ≤ _max_to_keep (self w).
Proof.
  intros Hinit Hnone Hcs w Hn Hcdb old kept.
  assert (consistent w) as Hcons.
  { apply training_run_consistent; [by eapply init_consistent | done]. }
  destruct (save_consistent cdb n w Hcons Hn Hcdb) as [Hsave Hcons'].
  eexists. split; [exact Hsave |]. cbn [self disk _file_paths with_count
    with_file_paths]. split; [done |].
  destruct Hcons' as (_ & _ & _ & _ & _ & _ & _ & _ & Hperm).
  cbn [self disk _dir_path _file_paths with_count with_file_paths] in Hperm.
  split; [done |]. rewrite <- Hperm, length_app, length_drop. cbn [length].
  destruct Hcons as (_ & _ & Hmax & _). fold old. lia.
Qed.

Lemma directory_holds_at_most_max_to_keep_witness :
  let w := run [Save cdb_ok 10; Save cdb_ok 20; Save cdb_ok 30]
               (fresh "/run" 1000 2) in
  let old := _file_paths (self w) in
  let kept := drop (Z.to_nat (Z.of_nat (length old)
                              - _max_to_keep (self w) + 1)) old in
  ∃ w',
    save cdb_ok 40 w = (inr (), w') ∧
    _file_paths (self w')
    = kept ++ [join (abspath (_dir_path (self w)))
                    (ckpt_name (steps (self w)) 40)] ∧
    candidates (_dir_path (self w)) (disk w') ≡ₚ _file_paths (self w') ∧
    Z.of_nat (length (candidates (_dir_path (self w)) (disk w')))
      ≤ _max_to_keep (self w).
Proof.
  apply (directory_holds_at_most_max_to_keep "/run" 1000 2 ∅
           (new_checkpoint "/run" 1000 2) {[ "/run" := Directory ]}
           [Save cdb_ok 10; Save cdb_ok 20; Save cdb_ok 30] cdb_ok 40).
  - vm_compute. reflexivity.
  - vm_compute. reflexivity.
  - cbn [allowed_run training_call]. unfold writes_file.
    repeat split; try done; vm_compute; reflexivity.
  - vm_compute. reflexivity.
  - done.
Defined.
